(** * mongoimport: the CSV and TSV input readers

    A shallow embedding of the CSV and the TSV input reader of package
    [mongoimport]: their constructors, their header handling, the producer
    goroutine of [StreamDocument] and the conversion of a TSV line into
    tokens.

    Go strings are byte sequences: they are modelled as [list ascii].
    [uint64] counters are [Z] with the wrap-around written out.  The
    [io.Reader] handed to a constructor is one shared object: it lives in a
    [Store], and the readers hold references to it. *)

From Stdlib Require Import ZArith List Bool Ascii String Lia Arith Permutation.
From Stdlib Require Import Numbers.DecimalString.
Import ListNotations.

Local Open Scope Z_scope.

(** ** Byte strings *)

Definition bytes := list ascii.

Definition B (s : string) : bytes := list_ascii_of_string s.

Definition TAB : ascii := "009"%char.
Definition LF : ascii := "010"%char.
Definition CR : ascii := "013"%char.

Module strings.

Fixpoint IndexByte (s : bytes) (c : ascii) : option nat :=
  match s with
  | [] => None
  | x :: s' =>
      if Ascii.eqb x c then Some O
      else match IndexByte s' c with
           | Some i => Some (S i)
           | None => None
           end
  end.

Definition ContainsByte (cutset : bytes) (c : ascii) : bool :=
  existsb (Ascii.eqb c) cutset.

Fixpoint HasPrefix (s prefix : bytes) : bool :=
  match prefix, s with
  | [], _ => true
  | _ :: _, [] => false
  | p :: prefix', x :: s' => Ascii.eqb x p && HasPrefix s' prefix'
  end.

(** [strings.TrimRight(s, cutset)]: [s] without the trailing bytes that
    occur in [cutset].  (Go works on code points; for the ASCII cutset
    used here that is the same as working on bytes.) *)
Fixpoint TrimRight (s cutset : bytes) : bytes :=
  match s with
  | [] => []
  | c :: s' =>
      match TrimRight s' cutset with
      | [] => if ContainsByte cutset c then [] else [c]
      | t => c :: t
      end
  end.

(** [genSplit]: scan [s]; [skip] counts the bytes of a separator that was
    just matched and still have to be passed over, [cur] is the token
    being collected. *)
Fixpoint genSplit (skip : nat) (cur s sep : bytes) : list bytes :=
  match s with
  | [] => [cur]
  | c :: s' =>
      match skip with
      | S k => genSplit k cur s' sep
      | O =>
          if HasPrefix s sep
          then cur :: genSplit (Nat.pred (List.length sep)) [] s' sep
          else genSplit O (cur ++ [c]) s' sep
      end
  end.

(** [strings.Split(s, sep)].  With an empty separator Go splits after each
    UTF-8 sequence; that case is written here for single-byte sequences
    and is not used by the readers. *)
Definition Split (s sep : bytes) : list bytes :=
  match sep with
  | [] => map (fun c => [c]) s
  | _ :: _ => genSplit O [] s sep
  end.

(** [strings.Join(a, sep)]. *)
Fixpoint Join (a : list bytes) (sep : bytes) : bytes :=
  match a with
  | [] => []
  | [t] => t
  | t :: ts => t ++ sep ++ Join ts sep
  end.

End strings.

(** ** Errors *)

Inductive error : Type :=
| EOF
| Failure (msg : string)
| Errorf_read (entry : Z) (cause : error).

Definition is_EOF (e : error) : bool :=
  match e with
  | EOF => true
  | _ => false
  end.

Definition Z_to_string (n : Z) : string := NilZero.string_of_int (Z.to_int n).

(** [err.Error()]; the third case is
    [fmt.Errorf("read error on entry #%v: %v", n, err)]. *)
Fixpoint Error (e : error) : string :=
  match e with
  | EOF => "EOF"
  | Failure msg => msg
  | Errorf_read n cause =>
      ("read error on entry #" ++ Z_to_string n ++ ": " ++ Error cause)%string
  end.

(** ** The input source and the size tracker *)

Module io.

(** The [io.Reader] given to a constructor: the bytes it still holds and
    the error it reports once they are used up ([EOF], or a failure). *)
Record Source := { pending : bytes; final : error }.

Definition Source_Read (n : nat) (s : Source) : bytes * option error * Source :=
  match n, pending s with
  | O, _ => ([], None, s)
  | S _, [] => ([], Some (final s), s)
  | S _, _ :: _ =>
      (firstn n (pending s), None,
       {| pending := skipn n (pending s); final := final s |})
  end.

(** Modelled from the spec: the type [sizeTrackingReader] is declared
    outside the two files; the constructors build it as
    [sizeTrackingReader{in, 0}], a reader and a count that starts at 0.
    Its [Read] passes the call on and adds the number of bytes it got; its
    [Size] is the count ("wraps a byte source, exposes cumulative bytes
    consumed").

    [in_obj] is the object behind [in]; [szCount_bytesRead] is the count
    of the one [szCount] a constructor makes, whose reader is [in]. *)
Record Store := { in_obj : Source; szCount_bytesRead : Z }.

(** What a [bufio.Reader] or [csv.Reader] can be built on. *)
Inductive ReaderRef := ref_in | ref_szCount.

Definition Read (r : ReaderRef) (n : nat) (st : Store)
  : bytes * option error * Store :=
  let '(data, err, s') := Source_Read n (in_obj st) in
  match r with
  | ref_in =>
      (data, err, {| in_obj := s'; szCount_bytesRead := szCount_bytesRead st |})
  | ref_szCount =>
      (data, err,
       {| in_obj := s';
          szCount_bytesRead := szCount_bytesRead st + Z.of_nat (List.length data) |})
  end.

Definition Size (st : Store) : Z := szCount_bytesRead st.

(** A source holding [data] that then reports [e]. *)
Definition source (data : bytes) (e : error) : Source :=
  {| pending := data; final := e |}.

End io.

(** ** bufio.Reader *)

Module bufio.

Definition defaultBufSize : nat := 4096.

Record Reader := { rd : io.ReaderRef; buf : bytes; err : option error }.

Definition NewReader (r : io.ReaderRef) : Reader :=
  {| rd := r; buf := []; err := None |}.

(** [ReadString(delim)]: bytes up to and including the first [delim]; when
    the underlying reader fails first, the bytes read so far and the
    error.  One turn of the loop is one turn of [ReadSlice]: look in the
    buffer, report a pending error, hand over a full buffer as a fragment
    ([acc]), or fill the free part of the buffer with one [Read]. *)
Fixpoint ReadString_loop (fuel : nat) (delim : ascii) (acc : bytes)
         (b : Reader) (st : io.Store)
  : option (bytes * option error * Reader * io.Store) :=
  match fuel with
  | O => None
  | S fuel' =>
      match strings.IndexByte (buf b) delim with
      | Some i =>
          Some (acc ++ firstn (S i) (buf b), None,
                {| rd := rd b; buf := skipn (S i) (buf b); err := err b |}, st)
      | None =>
          match err b with
          | Some e =>
              Some (acc ++ buf b, Some e,
                    {| rd := rd b; buf := []; err := None |}, st)
          | None =>
              if (defaultBufSize <=? List.length (buf b))%nat
              then ReadString_loop fuel' delim (acc ++ buf b)
                     {| rd := rd b; buf := []; err := None |} st
              else
                let '(data, e, st') :=
                  io.Read (rd b) (defaultBufSize - List.length (buf b)) st in
                ReadString_loop fuel' delim acc
                  {| rd := rd b; buf := buf b ++ data; err := e |} st'
          end
      end
  end.

Definition ReadString_fuel (st : io.Store) : nat :=
  (2 * List.length (io.pending (io.in_obj st)) + 4)%nat.

Definition ReadString (delim : ascii) (b : Reader) (st : io.Store)
  : option (bytes * option error * Reader * io.Store) :=
  ReadString_loop (ReadString_fuel st) delim [] b st.

End bufio.

(** ** Integers *)

(** [uint64] arithmetic wraps around. *)
Definition uint64 (n : Z) : Z := n mod 2 ^ 64.

(** ** Collaborators declared outside the two files *)

Module csv.

(** The [csv.Reader] of package [mongoimport/csv]: the two settings the
    constructor writes, and the buffered reader it is built on. *)
Record Reader := {
  FieldsPerRecord : Z;
  TrimLeadingSpace : bool;
  r : bufio.Reader }.

Definition NewReader (rd : io.ReaderRef) : Reader :=
  {| FieldsPerRecord := 0; TrimLeadingSpace := false; r := bufio.NewReader rd |}.

Definition set_FieldsPerRecord (n : Z) (c : Reader) : Reader :=
  {| FieldsPerRecord := n; TrimLeadingSpace := TrimLeadingSpace c; r := r c |}.

Definition set_TrimLeadingSpace (v : bool) (c : Reader) : Reader :=
  {| FieldsPerRecord := FieldsPerRecord c; TrimLeadingSpace := v; r := r c |}.

End csv.

(** What the two files call and do not define: [tokensToBSON] (with the
    document type [bson.D]) and the [Read] method of [csv.Reader], which
    frames one record, or reports an error; [None] stands for a call that
    does not return. *)
Class Collaborators := {
  bson_D : Type;
  tokensToBSON : list bytes -> list bytes -> Z -> bson_D * option error;
  csv_Read : csv.Reader -> io.Store
             -> option (list bytes * option error * csv.Reader * io.Store) }.

Definition is_empty (s : bytes) : bool :=
  match s with
  | [] => true
  | _ :: _ => false
  end.

Definition bytes_eqb (a b : bytes) : bool :=
  if list_eq_dec ascii_dec a b then true else false.

Fixpoint has_duplicate (fields : list bytes) : bool :=
  match fields with
  | [] => false
  | f :: rest => existsb (bytes_eqb f) rest || has_duplicate rest
  end.

(** Modelled from the spec: [validateReaderFields] is defined outside the
    two files.  A field list "must be non-empty and contain no duplicate or
    empty names"; anything else is a header error. *)
Definition validateReaderFields (fields : list bytes) : option error :=
  if Nat.eqb (List.length fields) 0 then Some (Failure "no fields")
  else if existsb is_empty fields then Some (Failure "empty field name")
  else if has_duplicate fields then Some (Failure "duplicate field name")
  else None.

(** ** Raw records *)

(** The interface [ConvertibleDoc] and its two implementations. *)
Inductive ConvertibleDoc : Type :=
| CSVConvertibleDoc (fields data : list bytes) (index : Z)
| TSVConvertibleDoc (fields : list bytes) (data : bytes) (index : Z).

Definition doc_index (d : ConvertibleDoc) : Z :=
  match d with
  | CSVConvertibleDoc _ _ i => i
  | TSVConvertibleDoc _ _ i => i
  end.

Definition entryDelimiter : ascii := LF.
Definition tokenSeparator : bytes := [TAB].
Definition crlf : bytes := [CR; LF].

(** The tokens [TSVConvertibleDoc.Convert] hands to [tokensToBSON]. *)
Definition tsvTokens (data : bytes) : list bytes :=
  strings.Split (strings.TrimRight data crlf) tokenSeparator.

Definition Convert `{Collaborators} (d : ConvertibleDoc) : bson_D * option error :=
  match d with
  | CSVConvertibleDoc fields data index => tokensToBSON fields data index
  | TSVConvertibleDoc fields data index => tokensToBSON fields (tsvTokens data) index
  end.

(** ** The CSV input reader *)

Module CSVInputReader.

Record t := {
  fields : list bytes;
  csvReader : csv.Reader;
  csvRecord : list bytes;
  numProcessed : Z;
  numDecoders : Z;
  sizeTracker : io.ReaderRef }.

Definition set_fields (v : list bytes) (c : t) : t :=
  {| fields := v; csvReader := csvReader c; csvRecord := csvRecord c;
     numProcessed := numProcessed c; numDecoders := numDecoders c;
     sizeTracker := sizeTracker c |}.

Definition set_csvReader (v : csv.Reader) (c : t) : t :=
  {| fields := fields c; csvReader := v; csvRecord := csvRecord c;
     numProcessed := numProcessed c; numDecoders := numDecoders c;
     sizeTracker := sizeTracker c |}.

Definition set_csvRecord (v : list bytes) (c : t) : t :=
  {| fields := fields c; csvReader := csvReader c; csvRecord := v;
     numProcessed := numProcessed c; numDecoders := numDecoders c;
     sizeTracker := sizeTracker c |}.

Definition set_numProcessed (v : Z) (c : t) : t :=
  {| fields := fields c; csvReader := csvReader c; csvRecord := csvRecord c;
     numProcessed := v; numDecoders := numDecoders c;
     sizeTracker := sizeTracker c |}.

(** [ReadAndValidateHeader]: the error it returns, and the reader after. *)
Definition ReadAndValidateHeader `{Collaborators} (c : t) (st : io.Store)
  : option (option error * t * io.Store) :=
  match csv_Read (csvReader c) st with
  | None => None
  | Some (fields, err, rd', st') =>
      let c := set_csvReader rd' c in
      match err with
      | Some e => Some (Some e, c, st')
      | None =>
          let c := set_fields fields c in
          Some (validateReaderFields (CSVInputReader.fields c), c, st')
      end
  end.

(** The producer goroutine of [StreamDocument], statement by statement. *)

(** [csvInputReader.csvRecord, err = csvInputReader.csvReader.Read()] *)
Definition read_entry `{Collaborators} (c : t) (st : io.Store)
  : option (option error * t * io.Store) :=
  match csv_Read (csvReader c) st with
  | None => None
  | Some (record, err, rd', st') =>
      Some (err, set_csvRecord record (set_csvReader rd' c), st')
  end.

(** [CSVConvertibleDoc{fields: ..., data: ..., index: ...}] *)
Definition entry_doc (c : t) : ConvertibleDoc :=
  CSVConvertibleDoc (fields c) (csvRecord c) (numProcessed c).

(** [csvInputReader.numProcessed++] *)
Definition incr_numProcessed (c : t) : t :=
  set_numProcessed (uint64 (numProcessed c + 1)) c.

End CSVInputReader.

(** [szCount := &sizeTrackingReader{in, 0}] puts [in] and a count of 0 in
    the store; the CSV reader is built on [szCount]. *)
Definition NewCSVInputReader (fields : list bytes) (in_ : io.Source) (numDecoders : Z)
  : CSVInputReader.t * io.Store :=
  let store := {| io.in_obj := in_; io.szCount_bytesRead := 0 |} in
  let szCount := io.ref_szCount in
  let csvReader := csv.NewReader szCount in
  let csvReader := csv.set_FieldsPerRecord (-1) csvReader in
  let csvReader := csv.set_TrimLeadingSpace true csvReader in
  ({| CSVInputReader.fields := fields;
      CSVInputReader.csvReader := csvReader;
      CSVInputReader.csvRecord := [];
      CSVInputReader.numProcessed := uint64 0;
      CSVInputReader.numDecoders := numDecoders;
      CSVInputReader.sizeTracker := szCount |}, store).

(** ** The TSV input reader *)

Module TSVInputReader.

Record t := {
  fields : list bytes;
  tsvReader : bufio.Reader;
  tsvRecord : bytes;
  numProcessed : Z;
  numDecoders : Z;
  sizeTracker : io.ReaderRef }.

Definition set_fields (v : list bytes) (c : t) : t :=
  {| fields := v; tsvReader := tsvReader c; tsvRecord := tsvRecord c;
     numProcessed := numProcessed c; numDecoders := numDecoders c;
     sizeTracker := sizeTracker c |}.

Definition set_tsvReader (v : bufio.Reader) (c : t) : t :=
  {| fields := fields c; tsvReader := v; tsvRecord := tsvRecord c;
     numProcessed := numProcessed c; numDecoders := numDecoders c;
     sizeTracker := sizeTracker c |}.

Definition set_tsvRecord (v : bytes) (c : t) : t :=
  {| fields := fields c; tsvReader := tsvReader c; tsvRecord := v;
     numProcessed := numProcessed c; numDecoders := numDecoders c;
     sizeTracker := sizeTracker c |}.

Definition set_numProcessed (v : Z) (c : t) : t :=
  {| fields := fields c; tsvReader := tsvReader c; tsvRecord := tsvRecord c;
     numProcessed := v; numDecoders := numDecoders c;
     sizeTracker := sizeTracker c |}.

(** [ReadAndValidateHeader]: the error it returns, and the reader after.
    The [for ... range] loop appends one trimmed name per turn. *)
Definition ReadAndValidateHeader (c : t) (st : io.Store)
  : option (option error * t * io.Store) :=
  match bufio.ReadString entryDelimiter (tsvReader c) st with
  | None => None
  | Some (header, err, rd', st') =>
      let c := set_tsvReader rd' c in
      match err with
      | Some e => Some (Some e, c, st')
      | None =>
          let c :=
            fold_left
              (fun c field =>
                 set_fields (fields c ++ [strings.TrimRight field crlf]) c)
              (strings.Split header tokenSeparator) c in
          Some (validateReaderFields (fields c), c, st')
      end
  end.

(** The producer goroutine of [StreamDocument], statement by statement. *)

(** [tsvInputReader.tsvRecord, err = tsvInputReader.tsvReader.ReadString(entryDelimiter)] *)
Definition read_entry (c : t) (st : io.Store)
  : option (option error * t * io.Store) :=
  match bufio.ReadString entryDelimiter (tsvReader c) st with
  | None => None
  | Some (line, err, rd', st') =>
      Some (err, set_tsvRecord line (set_tsvReader rd' c), st')
  end.

(** [TSVConvertibleDoc{fields: ..., data: ..., index: ...}] *)
Definition entry_doc (c : t) : ConvertibleDoc :=
  TSVConvertibleDoc (fields c) (tsvRecord c) (numProcessed c).

(** [tsvInputReader.numProcessed++] *)
Definition incr_numProcessed (c : t) : t :=
  set_numProcessed (uint64 (numProcessed c + 1)) c.

End TSVInputReader.

(** [szCount := &sizeTrackingReader{in, 0}] as above; the size tracker is
    [szCount], and the buffered reader is [bufio.NewReader(in)], built on
    [in] itself. *)
Definition NewTSVInputReader (fields : list bytes) (in_ : io.Source) (numDecoders : Z)
  : TSVInputReader.t * io.Store :=
  let store := {| io.in_obj := in_; io.szCount_bytesRead := 0 |} in
  let szCount := io.ref_szCount in
  ({| TSVInputReader.fields := fields;
      TSVInputReader.tsvReader := bufio.NewReader io.ref_in;
      TSVInputReader.tsvRecord := [];
      TSVInputReader.numProcessed := uint64 0;
      TSVInputReader.numDecoders := numDecoders;
      TSVInputReader.sizeTracker := szCount |}, store).

(** ** StreamDocument: the producer goroutine *)

(** What the two producer loops are made of. *)
Class InputReader (R : Type) := {
  read_entry : R -> io.Store -> option (option error * R * io.Store);
  entry_doc : R -> ConvertibleDoc;
  numProcessed : R -> Z;
  incr_numProcessed : R -> R;
  numDecoders : R -> Z }.

#[export] Instance CSV_InputReader `{Collaborators} : InputReader CSVInputReader.t := {
  read_entry := CSVInputReader.read_entry;
  entry_doc := CSVInputReader.entry_doc;
  numProcessed := CSVInputReader.numProcessed;
  incr_numProcessed := CSVInputReader.incr_numProcessed;
  numDecoders := CSVInputReader.numDecoders }.

#[export] Instance TSV_InputReader : InputReader TSVInputReader.t := {
  read_entry := TSVInputReader.read_entry;
  entry_doc := TSVInputReader.entry_doc;
  numProcessed := TSVInputReader.numProcessed;
  incr_numProcessed := TSVInputReader.incr_numProcessed;
  numDecoders := TSVInputReader.numDecoders }.

(** Where the goroutine stands: about to read, about to send the read
    error, about to close the record channel, about to send a record, or
    returned. *)
Inductive pc : Type := AtRead | AtSendErr | AtClose | AtSend | Returned.

(** What a step does to the channels. *)
Inductive Action : Type :=
| Tau
| Send (d : ConvertibleDoc)
| SendErr (e : error)
| Close.

(** The goroutine: the reader it works on, its local [err], its position. *)
Record Producer (R : Type) := {
  reader : R;
  err : option error;
  at_ : pc }.

Arguments reader {R} _.
Arguments err {R} _.
Arguments at_ {R} _.

Definition start {R : Type} (r : R) : Producer R :=
  {| reader := r; err := None; at_ := AtRead |}.

(** One step of
<<
    for {
      record, err = Read()
      if err != nil {
        if err != io.EOF {
          numProcessed++
          errChan <- fmt.Errorf("read error on entry #%v: %v", numProcessed, err)
        }
        close(recordChan)
        return
      }
      recordChan <- ConvertibleDoc{fields, record, numProcessed}
      numProcessed++
    }
>>
    The step that sends a record includes the increment that follows it. *)
Definition producer_step {R : Type} `{InputReader R}
           (p : Producer R) (st : io.Store)
  : option (Action * Producer R * io.Store) :=
  match at_ p with
  | AtRead =>
      match read_entry (reader p) st with
      | None => None
      | Some (None, r', st') =>
          Some (Tau, {| reader := r'; err := None; at_ := AtSend |}, st')
      | Some (Some e, r', st') =>
          if is_EOF e
          then Some (Tau, {| reader := r'; err := Some e; at_ := AtClose |}, st')
          else Some (Tau, {| reader := incr_numProcessed r'; err := Some e;
                             at_ := AtSendErr |}, st')
      end
  | AtSendErr =>
      match err p with
      | Some e =>
          Some (SendErr (Errorf_read (numProcessed (reader p)) e),
                {| reader := reader p; err := err p; at_ := AtClose |}, st)
      | None => None
      end
  | AtClose =>
      Some (Close, {| reader := reader p; err := err p; at_ := Returned |}, st)
  | AtSend =>
      Some (Send (entry_doc (reader p)),
            {| reader := incr_numProcessed (reader p); err := err p;
               at_ := AtRead |}, st)
  | Returned => None
  end.

(** The goroutine left to run for [n] steps: what it did to the channels,
    and where it stands. *)
Fixpoint run {R : Type} `{InputReader R} (n : nat) (p : Producer R) (st : io.Store)
  : list Action * Producer R * io.Store :=
  match n with
  | O => ([], p, st)
  | S n' =>
      match producer_step p st with
      | None => ([], p, st)
      | Some (a, p', st') =>
          let '(acts, p'', st'') := run n' p' st' in
          (a :: acts, p'', st'')
      end
  end.

Fixpoint sends (acts : list Action) : list ConvertibleDoc :=
  match acts with
  | [] => []
  | Send d :: rest => d :: sends rest
  | _ :: rest => sends rest
  end.

Fixpoint errors (acts : list Action) : list error :=
  match acts with
  | [] => []
  | SendErr e :: rest => e :: errors rest
  | _ :: rest => errors rest
  end.

Fixpoint visible (acts : list Action) : list Action :=
  match acts with
  | [] => []
  | Tau :: rest => visible rest
  | a :: rest => a :: visible rest
  end.

(** ** StreamDocument: the goroutine, the record channel and the caller *)

(** The calling goroutine: inside [streamDocuments], about to send what it
    returned on [errChan], or done. *)
Inductive main_pc : Type :=
| Streaming
| Sending (r : option error)
| Done (r : option error).

(** Modelled from the spec: [streamDocuments] is defined outside the two
    files.  Of the engine only this is kept: it takes records out of the
    record channel, a conversion may fail, and it returns nil or an error.
    [terminalError] is the spec's "first-write-wins terminal-error cell". *)
Record System (R : Type) := {
  producer : Producer R;
  store : io.Store;
  ordered : bool;
  capacity : nat;
  queue : list ConvertibleDoc;
  closed : bool;
  received : list ConvertibleDoc;
  main : main_pc;
  errChan : list (option error);
  terminalError : option error }.

Arguments producer {R} _.
Arguments store {R} _.
Arguments ordered {R} _.
Arguments capacity {R} _.
Arguments queue {R} _.
Arguments closed {R} _.
Arguments received {R} _.
Arguments main {R} _.
Arguments errChan {R} _.
Arguments terminalError {R} _.

Definition latch (cell : option error) (e : error) : option error :=
  match cell with
  | Some first => Some first
  | None => Some e
  end.

(** The records the record channel has accepted so far, oldest first. *)
Definition accepted {R : Type} (s : System R) : list ConvertibleDoc :=
  received s ++ queue s.

(** Who moves next. *)
Inductive move : Type :=
| RunProducer
| EngineReceive
| EngineFail (e : error)
| EngineReturn (r : option error)
| MainSend.

(** The producer goroutine takes its next step.  A send on the record
    channel goes through when the buffer has room, or, on a channel without
    buffer, when the engine is there to receive. *)
Definition producer_move {R : Type} `{InputReader R} (s : System R)
  : option (System R) :=
  match producer_step (producer s) (store s) with
  | None => None
  | Some (a, p', st') =>
      match a with
      | Tau =>
          Some {| producer := p'; store := st'; ordered := ordered s;
                  capacity := capacity s; queue := queue s; closed := closed s;
                  received := received s; main := main s; errChan := errChan s;
                  terminalError := terminalError s |}
      | Send d =>
          if (List.length (queue s) <? capacity s)%nat
          then Some {| producer := p'; store := st'; ordered := ordered s;
                       capacity := capacity s; queue := queue s ++ [d];
                       closed := closed s; received := received s;
                       main := main s; errChan := errChan s;
                       terminalError := terminalError s |}
          else
            match capacity s, main s with
            | O, Streaming =>
                Some {| producer := p'; store := st'; ordered := ordered s;
                        capacity := capacity s; queue := queue s;
                        closed := closed s; received := received s ++ [d];
                        main := main s; errChan := errChan s;
                        terminalError := terminalError s |}
            | _, _ => None
            end
      | SendErr e =>
          Some {| producer := p'; store := st'; ordered := ordered s;
                  capacity := capacity s; queue := queue s; closed := closed s;
                  received := received s; main := main s;
                  errChan := errChan s ++ [Some e];
                  terminalError := latch (terminalError s) e |}
      | Close =>
          Some {| producer := p'; store := st'; ordered := ordered s;
                  capacity := capacity s; queue := queue s; closed := true;
                  received := received s; main := main s; errChan := errChan s;
                  terminalError := terminalError s |}
      end
  end.

Definition sys_step {R : Type} `{InputReader R} (m : move) (s : System R)
  : option (System R) :=
  match m with
  | RunProducer => producer_move s
  | EngineReceive =>
      match main s, queue s with
      | Streaming, d :: q =>
          Some {| producer := producer s; store := store s; ordered := ordered s;
                  capacity := capacity s; queue := q; closed := closed s;
                  received := received s ++ [d]; main := main s;
                  errChan := errChan s; terminalError := terminalError s |}
      | _, _ => None
      end
  | EngineFail e =>
      match main s with
      | Streaming =>
          Some {| producer := producer s; store := store s; ordered := ordered s;
                  capacity := capacity s; queue := queue s; closed := closed s;
                  received := received s; main := main s; errChan := errChan s;
                  terminalError := latch (terminalError s) e |}
      | _ => None
      end
  | EngineReturn r =>
      match main s with
      | Streaming =>
          Some {| producer := producer s; store := store s; ordered := ordered s;
                  capacity := capacity s; queue := queue s; closed := closed s;
                  received := received s; main := Sending r;
                  errChan := errChan s; terminalError := terminalError s |}
      | _ => None
      end
  | MainSend =>
      match main s with
      | Sending r =>
          Some {| producer := producer s; store := store s; ordered := ordered s;
                  capacity := capacity s; queue := queue s; closed := closed s;
                  received := received s; main := Done r;
                  errChan := errChan s ++ [r]; terminalError := terminalError s |}
      | _ => None
      end
  end.

Fixpoint exec {R : Type} `{InputReader R} (sched : list move) (s : System R)
  : option (System R) :=
  match sched with
  | [] => Some s
  | m :: rest =>
      match sys_step m s with
      | Some s' => exec rest s'
      | None => None
      end
  end.

(** [StreamDocument(ordered, readDocChan, errChan)] at its start: the record
    channel is made with room for [numDecoders] records ([make] panics on a
    negative size: [None]), the goroutine is started, and the caller enters
    [streamDocuments]. *)
Definition StreamDocument {R : Type} `{InputReader R}
           (r : R) (st : io.Store) (ordered : bool) : option (System R) :=
  if numDecoders r <? 0 then None
  else Some {| producer := start r; store := st; ordered := ordered;
               capacity := Z.to_nat (numDecoders r); queue := []; closed := false;
               received := []; main := Streaming; errChan := [];
               terminalError := None |}.

(** Both goroutines have returned. *)
Definition finished {R : Type} (s : System R) : bool :=
  match at_ (producer s), main s with
  | Returned, Done _ => true
  | _, _ => false
  end.

(** ** The spec's words for TSV framing *)

(** "trailing line terminators stripped": drop CR and LF from the end. *)
Definition is_line_terminator (c : ascii) : bool :=
  Ascii.eqb c CR || Ascii.eqb c LF.

Fixpoint drop_leading_terminators (s : bytes) : bytes :=
  match s with
  | [] => []
  | c :: s' => if is_line_terminator c then drop_leading_terminators s' else s
  end.

Definition strip_trailing_terminators (s : bytes) : bytes :=
  rev (drop_leading_terminators (rev s)).

(** "tokens split on a literal single-character separator". *)
Fixpoint split_on (sep : ascii) (s : bytes) : list bytes :=
  match s with
  | [] => [[]]
  | c :: s' =>
      if Ascii.eqb c sep then [] :: split_on sep s'
      else match split_on sep s' with
           | t :: ts => (c :: t) :: ts
           | [] => [[c]]
           end
  end.

(** A line as the TSV reader frames it: bytes without LF, then LF. *)
Definition is_line (l : bytes) : Prop :=
  exists body, l = body ++ [LF] /\ ~ In LF body.

(** The records a TSV reader makes of [lines], counting from [from]. *)
Fixpoint tsv_records (fields : list bytes) (from : Z) (lines : list bytes)
  : list ConvertibleDoc :=
  match lines with
  | [] => []
  | l :: rest =>
      TSVConvertibleDoc fields l from :: tsv_records fields (uint64 (from + 1)) rest
  end.

(** ** Notions the properties are stated and proved with *)

(** An input line of the given cells, tab-separated and ended by LF. *)
Definition tsv_line (cells : list string) : bytes :=
  strings.Join (map B cells) tokenSeparator ++ [entryDelimiter].

(** A pending error of the buffered reader is the source's, met at its end. *)
Definition buffered_ok (b : bufio.Reader) (st : io.Store) : Prop :=
  forall e, bufio.err b = Some e ->
            e = io.final (io.in_obj st) /\ io.pending (io.in_obj st) = [].

(** What reads through [r] do to the store: the source's last word stays;
    reads on [in] leave the count of [szCount] alone; reads on [szCount]
    add to the count what they take from the source. *)
Definition read_through (r : io.ReaderRef) (st st' : io.Store) : Prop :=
  io.final (io.in_obj st') = io.final (io.in_obj st) /\
  match r with
  | io.ref_in => io.szCount_bytesRead st' = io.szCount_bytesRead st
  | io.ref_szCount =>
      (io.szCount_bytesRead st' + Z.of_nat (List.length (io.pending (io.in_obj st'))) =
       io.szCount_bytesRead st + Z.of_nat (List.length (io.pending (io.in_obj st))))%Z
  end.

(** What [ReadString] has left to do: it goes down with every turn of the
    loop. *)
Definition ReadString_measure (b : bufio.Reader) (st : io.Store) : nat :=
  (2 * List.length (io.pending (io.in_obj st))
   + (match bufio.err b with Some _ => 0 | None => 2 end)
   + (if bufio.defaultBufSize <=? List.length (bufio.buf b) then 1 else 0))%nat.

(** What the proofs need of an input reader: reading an entry leaves the
    counter alone, the increment is the [uint64] one, and a record carries
    the counter as its index. *)
Class InputReaderLaws (R : Type) `{InputReader R} : Prop := {
  read_entry_numProcessed :
    forall r st e r' st',
      read_entry r st = Some (e, r', st') -> numProcessed r' = numProcessed r;
  incr_numProcessed_spec :
    forall r, numProcessed (incr_numProcessed r) = uint64 (numProcessed r + 1);
  entry_doc_index :
    forall r, doc_index (entry_doc r) = numProcessed r }.

(** What the goroutine sends when its read fails with [e], having sent
    [sent] records since the counter was [from]. *)
Definition read_error_sent (from : Z) (sent : nat) (e : error) : list Action :=
  if is_EOF e then []
  else [SendErr (Errorf_read (uint64 (from + Z.of_nat sent + 1)) e)].

(** What has gone over the channels, by where the goroutine stands. *)
Definition trace_ok {R : Type} `{InputReader R}
           (from : Z) (acts : list Action) (p : Producer R) : Prop :=
  map doc_index (sends acts) =
  map (fun i => uint64 (from + Z.of_nat i)) (seq 0 (List.length (sends acts))) /\
  match at_ p with
  | AtRead | AtSend =>
      visible acts = map Send (sends acts) /\
      numProcessed (reader p) = uint64 (from + Z.of_nat (List.length (sends acts)))
  | AtSendErr =>
      exists e, err p = Some e /\ is_EOF e = false /\
                visible acts = map Send (sends acts) /\
                numProcessed (reader p) =
                uint64 (from + Z.of_nat (List.length (sends acts)) + 1)
  | AtClose =>
      exists e, err p = Some e /\
                visible acts =
                map Send (sends acts) ++
                read_error_sent from (List.length (sends acts)) e
  | Returned =>
      exists e, err p = Some e /\
                visible acts =
                map Send (sends acts) ++
                read_error_sent from (List.length (sends acts)) e ++ [Close]
  end.

(** The read errors a run has sent: none before the loop is left, and at
    most the one of the failed read after. *)
Definition read_errors_of {R : Type} (from : Z) (sent : nat) (p : Producer R)
  : list error :=
  match at_ p, err p with
  | (AtClose | Returned), Some e =>
      if is_EOF e then [] else [Errorf_read (uint64 (from + Z.of_nat sent + 1)) e]
  | _, _ => []
  end.

(** Between two calls the buffered reader of a TSV reader holds no error,
    and it reads from [in]. *)
Definition tsv_ok (r : TSVInputReader.t) : Prop :=
  bufio.err (TSVInputReader.tsvReader r) = None /\
  bufio.rd (TSVInputReader.tsvReader r) = io.ref_in.

(** What is still to be framed: the buffer, then the source. *)
Definition tsv_stream (r : TSVInputReader.t) (st : io.Store) : bytes :=
  bufio.buf (TSVInputReader.tsvReader r) ++ io.pending (io.in_obj st).

(** The actions of the goroutine while it frames and sends [docs]. *)
Definition sending (docs : list ConvertibleDoc) : list Action :=
  flat_map (fun d => [Tau; Send d]) docs.

(** The names a TSV header line gives. *)
Definition tsv_header_names (header : bytes) : list bytes :=
  map (fun f => strings.TrimRight f crlf) (strings.Split header tokenSeparator).


(** What the caller has put on the error channel. *)
Definition main_sent (m : main_pc) : list (option error) :=
  match m with
  | Done r => [r]
  | _ => []
  end.

(** The same system with another content of the terminal-error cell. *)
Definition set_terminalError {R : Type} (cell : option error) (s : System R)
  : System R :=
  {| producer := producer s; store := store s; ordered := ordered s;
     capacity := capacity s; queue := queue s; closed := closed s;
     received := received s; main := main s; errChan := errChan s;
     terminalError := cell |}.

(** The goroutine has left its loop. *)
Definition past_read_error (c : pc) : bool :=
  match c with
  | AtSendErr | AtClose | Returned => true
  | AtRead | AtSend => false
  end.

(** The system is where some run of the goroutine has brought it. *)
Definition sys_ok {R : Type} `{InputReader R}
           (r0 : R) (st0 : io.Store) (s : System R) : Prop :=
  exists n acts,
    run n (start r0) st0 = (acts, producer s, store s) /\
    accepted s = sends acts /\
    (List.length (queue s) <= capacity s)%nat /\
    Permutation (errChan s) (map Some (errors acts) ++ main_sent (main s)).

(** Where the record counter stands, by where the goroutine stands: at
    the records sent, and one more once a read has failed with an error
    other than end-of-input. *)
Definition counter_ok {R : Type} `{InputReader R}
           (from : Z) (acts : list Action) (p : Producer R) : Prop :=
  match at_ p with
  | AtRead | AtSend =>
      numProcessed (reader p) = uint64 (from + Z.of_nat (List.length (sends acts)))
  | AtSendErr =>
      exists e, err p = Some e /\ is_EOF e = false /\
                numProcessed (reader p) =
                uint64 (from + Z.of_nat (List.length (sends acts)) + 1)
  | AtClose | Returned =>
      exists e, err p = Some e /\
                numProcessed (reader p) =
                uint64 (from + Z.of_nat (List.length (sends acts))
                        + (if is_EOF e then 0 else 1))
  end.

(** The record channel is closed only by a goroutine that then returns. *)
Definition closed_ok {R : Type} (s : System R) : Prop :=
  closed s = true <-> at_ (producer s) = Returned.




(** * Properties *)

(** ** Byte strings *)

Section StringFacts.

Local Open Scope nat_scope.

Lemma IndexByte_lt (s : bytes) (c : ascii) (i : nat) :
  strings.IndexByte s c = Some i -> i < List.length s.
Proof.
  revert i; induction s as [|x s IH]; simpl; intros i Hi; [discriminate|].
  destruct (Ascii.eqb x c).
  - inversion Hi; lia.
  - destruct (strings.IndexByte s c) as [j|]; [|discriminate].
    inversion Hi; subst. specialize (IH j eq_refl). lia.
Qed.

Lemma IndexByte_None (s : bytes) (c : ascii) :
  strings.IndexByte s c = None <-> ~ In c s.
Proof.
  induction s as [|x s IH]; simpl.
  - tauto.
  - destruct (Ascii.eqb_spec x c) as [->|Hne].
    + split; [discriminate | intros H; exfalso; apply H; now left].
    + destruct (strings.IndexByte s c) as [j|].
      * split; [discriminate|]. intros H. exfalso.
        assert (Hs : ~ In c s) by tauto.
        apply IH in Hs. discriminate.
      * split; [|reflexivity]. intros _ [Heq|Hin]; [congruence|].
        now apply (proj1 IH).
Qed.

Lemma IndexByte_app_found (s t : bytes) (c : ascii) (i : nat) :
  strings.IndexByte s c = Some i -> strings.IndexByte (s ++ t) c = Some i.
Proof.
  revert i; induction s as [|x s IH]; simpl; intros i Hi; [discriminate|].
  destruct (Ascii.eqb x c); [assumption|].
  destruct (strings.IndexByte s c) as [j|]; [|discriminate].
  now rewrite (IH j eq_refl).
Qed.

Lemma IndexByte_app_missing (s t : bytes) (c : ascii) :
  strings.IndexByte s c = None ->
  strings.IndexByte (s ++ t) c =
  option_map (fun j => List.length s + j) (strings.IndexByte t c).
Proof.
  induction s as [|x s IH]; simpl; intros Hs.
  - destruct (strings.IndexByte t c); reflexivity.
  - destruct (Ascii.eqb x c); [discriminate|].
    destruct (strings.IndexByte s c) as [j|]; [discriminate|].
    rewrite (IH eq_refl).
    destruct (strings.IndexByte t c); reflexivity.
Qed.

Lemma IndexByte_line (body rest : bytes) (c : ascii) :
  ~ In c body ->
  strings.IndexByte ((body ++ [c]) ++ rest) c = Some (List.length body).
Proof.
  intros Hb. apply IndexByte_app_found.
  rewrite IndexByte_app_missing by now apply IndexByte_None.
  simpl. rewrite Ascii.eqb_refl. simpl. f_equal. lia.
Qed.

Lemma TrimRight_snoc_keep (s cutset : bytes) (c : ascii) :
  strings.ContainsByte cutset c = false ->
  strings.TrimRight (s ++ [c]) cutset = s ++ [c].
Proof.
  intros Hc. induction s as [|x s IH]; simpl.
  - now rewrite Hc.
  - rewrite IH. destruct (s ++ [c]) eqn:E; [|reflexivity].
    now destruct s.
Qed.

Lemma TrimRight_snoc_drop (s cutset : bytes) (c : ascii) :
  strings.ContainsByte cutset c = true ->
  strings.TrimRight (s ++ [c]) cutset = strings.TrimRight s cutset.
Proof.
  intros Hc. induction s as [|x s IH]; simpl.
  - now rewrite Hc.
  - now rewrite IH.
Qed.

Lemma ContainsByte_crlf (c : ascii) :
  strings.ContainsByte crlf c = is_line_terminator c.
Proof.
  unfold strings.ContainsByte, crlf, is_line_terminator. simpl.
  now rewrite orb_false_r.
Qed.

Lemma TrimRight_crlf (s : bytes) :
  strings.TrimRight s crlf = strip_trailing_terminators s.
Proof.
  unfold strip_trailing_terminators.
  induction s as [|c s IH] using rev_ind; [reflexivity|].
  rewrite rev_app_distr. simpl.
  destruct (is_line_terminator c) eqn:E.
  - rewrite TrimRight_snoc_drop by now rewrite ContainsByte_crlf.
    exact IH.
  - rewrite TrimRight_snoc_keep by now rewrite ContainsByte_crlf.
    simpl. now rewrite rev_involutive.
Qed.

Lemma split_on_nonempty (c : ascii) (s : bytes) : split_on c s <> [].
Proof.
  destruct s as [|x s]; simpl; [discriminate|].
  destruct (Ascii.eqb x c); [discriminate|].
  destruct (split_on c s); discriminate.
Qed.

Lemma genSplit_single (c : ascii) (s cur : bytes) :
  strings.genSplit 0 cur s [c] =
  match split_on c s with
  | t :: ts => (cur ++ t) :: ts
  | [] => [cur]
  end.
Proof.
  revert cur; induction s as [|x s IH]; intros cur; simpl.
  - now rewrite app_nil_r.
  - replace (strings.HasPrefix s []) with true by now destruct s.
    rewrite andb_true_r. destruct (Ascii.eqb x c).
    + rewrite app_nil_r. f_equal. rewrite IH.
      destruct (split_on c s) eqn:E; [now apply split_on_nonempty in E|].
      reflexivity.
    + rewrite IH. destruct (split_on c s) eqn:E.
      * now apply split_on_nonempty in E.
      * now rewrite <- app_assoc.
Qed.

Lemma Split_single (c : ascii) (s : bytes) :
  strings.Split s [c] = split_on c s.
Proof.
  unfold strings.Split. rewrite genSplit_single.
  destruct (split_on c s) eqn:E; [now apply split_on_nonempty in E|].
  reflexivity.
Qed.



Lemma split_on_length (c : ascii) (s : bytes) :
  List.length (split_on c s) = S (count_occ ascii_dec s c).
Proof.
  induction s as [|x s IH]; [reflexivity|].
  simpl. destruct (Ascii.eqb_spec x c) as [->|Hne].
  - simpl. rewrite IH. now destruct (ascii_dec c c).
  - destruct (ascii_dec x c); [congruence|].
    destruct (split_on c s); simpl in *; lia.
Qed.

End StringFacts.

(** ** Reading through [bufio.Reader] *)

Section BufioFacts.

Local Open Scope nat_scope.

Lemma read_through_refl (r : io.ReaderRef) (st : io.Store) : read_through r st st.
Proof. split; [reflexivity | destruct r; reflexivity]. Qed.

Lemma read_through_trans (r : io.ReaderRef) (a b c : io.Store) :
  read_through r a b -> read_through r b c -> read_through r a c.
Proof.
  intros [F1 C1] [F2 C2]. split; [congruence|].
  destruct r; congruence.
Qed.

Lemma Read_spec (r : io.ReaderRef) (n : nat) (st : io.Store) :
  0 < n ->
  exists data e st',
    io.Read r n st = (data, e, st') /\
    read_through r st st' /\
    data ++ io.pending (io.in_obj st') = io.pending (io.in_obj st) /\
    match io.pending (io.in_obj st) with
    | [] => e = Some (io.final (io.in_obj st)) /\ data = []
    | _ :: _ => e = None /\ data <> []
    end.
Proof.
  intros Hn. unfold io.Read, io.Source_Read.
  destruct n as [|n]; [lia|].
  destruct (io.pending (io.in_obj st)) as [|x p] eqn:Ep.
  - destruct r; do 3 eexists; (split; [reflexivity|]); simpl;
      rewrite ?Ep; repeat split; simpl; rewrite ?Ep; simpl; try reflexivity; lia.
  - destruct r; do 3 eexists; (split; [reflexivity|]); simpl.
    + repeat split; try discriminate. now rewrite firstn_skipn.
    + repeat split; try discriminate.
      * rewrite Ep. simpl.
        pose proof (firstn_skipn n p) as Hfs.
        apply (f_equal (@List.length ascii)) in Hfs.
        rewrite length_app in Hfs. lia.
      * now rewrite firstn_skipn.
Qed.

Lemma defaultBufSize_pos : 0 < bufio.defaultBufSize.
Proof. unfold bufio.defaultBufSize. lia. Qed.

Lemma firstn_app_found (buf rest : bytes) (i : nat) :
  i < List.length buf -> firstn (S i) (buf ++ rest) = firstn (S i) buf.
Proof.
  intros Hi. rewrite firstn_app.
  replace (S i - List.length buf) with 0 by lia.
  now rewrite firstn_O, app_nil_r.
Qed.

Lemma skipn_app_found (buf rest : bytes) (i : nat) :
  i < List.length buf -> skipn (S i) (buf ++ rest) = skipn (S i) buf ++ rest.
Proof.
  intros Hi. rewrite skipn_app.
  now replace (S i - List.length buf) with 0 by lia.
Qed.

Lemma firstn_app_past (buf rest : bytes) (j : nat) :
  firstn (S (List.length buf + j)) (buf ++ rest) = buf ++ firstn (S j) rest.
Proof.
  rewrite firstn_app.
  rewrite firstn_all2 by lia.
  now replace (S (List.length buf + j) - List.length buf) with (S j) by lia.
Qed.

Lemma skipn_app_past (buf rest : bytes) (j : nat) :
  skipn (S (List.length buf + j)) (buf ++ rest) = skipn (S j) rest.
Proof.
  rewrite skipn_app.
  rewrite skipn_all2 by lia.
  now replace (S (List.length buf + j) - List.length buf) with (S j) by lia.
Qed.

(** With fuel above the measure, [ReadString] returns: the line up to and
    including the first delimiter of what is buffered and pending, or all
    of it with the source's error. *)
Lemma ReadString_loop_spec (fuel : nat) :
  forall (delim : ascii) (acc : bytes) (b : bufio.Reader) (st : io.Store),
    buffered_ok b st ->
    ReadString_measure b st < fuel ->
    exists line e b' st',
      bufio.ReadString_loop fuel delim acc b st = Some (line, e, b', st') /\
      read_through (bufio.rd b) st st' /\
      bufio.rd b' = bufio.rd b /\
      buffered_ok b' st' /\
      (bufio.err b = None -> bufio.err b' = None) /\
      match strings.IndexByte (bufio.buf b ++ io.pending (io.in_obj st)) delim with
      | Some i =>
          line = acc ++ firstn (S i) (bufio.buf b ++ io.pending (io.in_obj st)) /\
          e = None /\
          bufio.buf b' ++ io.pending (io.in_obj st') =
          skipn (S i) (bufio.buf b ++ io.pending (io.in_obj st))
      | None =>
          line = acc ++ bufio.buf b ++ io.pending (io.in_obj st) /\
          e = Some (io.final (io.in_obj st)) /\
          bufio.buf b' = [] /\ io.pending (io.in_obj st') = [] /\
          bufio.err b' = None
      end.
Proof.
  induction fuel as [|fuel IH]; intros delim acc b st Hok Hm; [lia|].
  cbn [bufio.ReadString_loop].
  destruct (strings.IndexByte (bufio.buf b) delim) as [i|] eqn:Ebuf.
  - (* the delimiter is in the buffer *)
    pose proof (IndexByte_lt _ _ _ Ebuf) as Hi.
    rewrite (IndexByte_app_found _ (io.pending (io.in_obj st)) _ _ Ebuf).
    do 4 eexists. split; [reflexivity|].
    split; [apply read_through_refl|].
    split; [reflexivity|].
    split; [exact Hok|].
    split; [now intros|].
    cbn [bufio.buf]. rewrite firstn_app_found, skipn_app_found by exact Hi.
    now repeat split.
  - destruct (bufio.err b) as [e0|] eqn:Eerr.
    + (* a pending error *)
      destruct (Hok e0 Eerr) as [-> Hp].
      rewrite Hp, app_nil_r, Ebuf.
      do 4 eexists. split; [reflexivity|].
      split; [apply read_through_refl|].
      split; [reflexivity|].
      split; [intros e; discriminate|].
      split; [discriminate|].
      now repeat split.
    + destruct (bufio.defaultBufSize <=? List.length (bufio.buf b)) eqn:Efull.
      * (* the buffer is full: it becomes a fragment of the line *)
        pose proof defaultBufSize_pos as Hpos.
        destruct (IH delim (acc ++ bufio.buf b)
                     {| bufio.rd := bufio.rd b; bufio.buf := []; bufio.err := None |} st)
          as (line & e & b' & st' & Hrun & Hthrough & Hrd & Hok' & Herr & Hres).
        { intros e; discriminate. }
        { unfold ReadString_measure in *. cbn [bufio.buf bufio.err List.length].
          rewrite Eerr, Efull in Hm.
          destruct (bufio.defaultBufSize <=? 0) eqn:E0;
            [apply Nat.leb_le in E0; lia | lia]. }
        exists line, e, b', st'. split; [exact Hrun|].
        split; [exact Hthrough|]. split; [exact Hrd|]. split; [exact Hok'|].
        split; [intros _; now apply Herr|].
        cbn [bufio.buf app] in Hres.
        rewrite (IndexByte_app_missing _ _ _ Ebuf).
        destruct (strings.IndexByte (io.pending (io.in_obj st)) delim) as [j|];
          cbn [option_map].
        -- destruct Hres as (-> & -> & Hrest).
           rewrite firstn_app_past, skipn_app_past, <- app_assoc.
           now repeat split.
        -- destruct Hres as (-> & -> & Hrest). rewrite <- app_assoc.
           now repeat split.
      * (* fill the free part of the buffer *)
        apply Nat.leb_gt in Efull.
        destruct (Read_spec (bufio.rd b)
                    (bufio.defaultBufSize - List.length (bufio.buf b)) st)
          as (data & e1 & st1 & HR & Hthrough1 & Hsplit & Hcase); [lia|].
        rewrite HR.
        destruct (IH delim acc
                     {| bufio.rd := bufio.rd b; bufio.buf := bufio.buf b ++ data;
                        bufio.err := e1 |} st1)
          as (line & e & b' & st' & Hrun & Hthrough & Hrd & Hok' & Herr & Hres).
        { intros e He. simpl in He. destruct Hthrough1 as [Hfin _].
          destruct (io.pending (io.in_obj st)) eqn:Ep.
          - destruct Hcase as [-> ->]. inversion He; subst.
            split; [now rewrite Hfin | exact Hsplit].
          - destruct Hcase as [-> _]. discriminate. }
        { unfold ReadString_measure in *. cbn [bufio.buf bufio.err].
          rewrite Eerr in Hm.
          apply (f_equal (@List.length ascii)) in Hsplit.
          rewrite length_app in Hsplit.
          destruct (bufio.defaultBufSize <=? List.length (bufio.buf b)) eqn:E0;
            [apply Nat.leb_le in E0; lia|].
          destruct (io.pending (io.in_obj st)) eqn:Ep.
          - destruct Hcase as [-> ->]. rewrite app_nil_r, E0.
            cbn [List.length] in *. lia.
          - destruct Hcase as [-> Hdata].
            assert (0 < List.length data)
              by (destruct data; [congruence | cbn [List.length]; lia]).
            destruct (bufio.defaultBufSize <=? List.length (bufio.buf b ++ data));
              cbn [List.length] in *; lia. }
        cbn [bufio.buf bufio.rd bufio.err] in Hres, Hrd, Herr.
        rewrite <- app_assoc, Hsplit in Hres.
        exists line, e, b', st'. split; [exact Hrun|].
        split; [exact (read_through_trans _ _ _ _ Hthrough1 Hthrough)|].
        split; [exact Hrd|]. split; [exact Hok'|].
        destruct (io.pending (io.in_obj st)) as [|x p] eqn:Ep.
        -- destruct Hcase as [-> ->].
           rewrite app_nil_r in *. rewrite Ebuf in *.
           destruct Hres as (-> & -> & Hb & Hp & He').
           split; [now intros|].
           destruct Hthrough1 as [Hfin _]. rewrite Hfin. now repeat split.
        -- destruct Hcase as [-> _]. split; [exact Herr|].
           destruct (strings.IndexByte (bufio.buf b ++ x :: p) delim).
           ++ exact Hres.
           ++ destruct Hres as (-> & -> & Hb & Hp & He').
              destruct Hthrough1 as [Hfin _]. rewrite Hfin. now repeat split.
Qed.

End BufioFacts.

(** ** The producer goroutine, for any input reader *)

#[export] Instance TSV_InputReaderLaws : InputReaderLaws TSVInputReader.t.
Proof.
  split.
  - intros r st e r' st'. simpl. unfold TSVInputReader.read_entry.
    destruct (bufio.ReadString _ _ _) as [[[[line e0] rd'] st0]|]; [|discriminate].
    intros Heq. inversion Heq; subst. reflexivity.
  - reflexivity.
  - reflexivity.
Qed.

#[export] Instance CSV_InputReaderLaws `{Collaborators} : InputReaderLaws CSVInputReader.t.
Proof.
  split.
  - intros r st e r' st'. simpl. unfold CSVInputReader.read_entry.
    destruct (csv_Read _ _) as [[[[record e0] rd'] st0]|]; [|discriminate].
    intros Heq. inversion Heq; subst. reflexivity.
  - reflexivity.
  - reflexivity.
Qed.

Lemma Error_of_read_error :
  Error (Errorf_read 2 (Failure "disk")) = "read error on entry #2: disk"%string.
Proof. reflexivity. Qed.

Lemma uint64_add_l (a b : Z) : uint64 (uint64 a + b) = uint64 (a + b).
Proof. unfold uint64. now rewrite Zplus_mod_idemp_l. Qed.

Lemma uint64_small (a : Z) : 0 <= a < 2 ^ 64 -> uint64 a = a.
Proof. intros Ha. unfold uint64. now apply Z.mod_small. Qed.

Lemma sends_app (a b : list Action) : sends (a ++ b) = sends a ++ sends b.
Proof.
  induction a as [|x a IH]; [reflexivity|].
  destruct x; simpl; now rewrite IH.
Qed.

Lemma errors_app (a b : list Action) : errors (a ++ b) = errors a ++ errors b.
Proof.
  induction a as [|x a IH]; [reflexivity|].
  destruct x; simpl; now rewrite IH.
Qed.

Lemma visible_app (a b : list Action) : visible (a ++ b) = visible a ++ visible b.
Proof.
  induction a as [|x a IH]; [reflexivity|].
  destruct x; simpl; now rewrite IH.
Qed.

Lemma errors_visible (a : list Action) : errors (visible a) = errors a.
Proof.
  induction a as [|x a IH]; [reflexivity|].
  destruct x; simpl; now rewrite ?IH.
Qed.

Lemma sends_visible (a : list Action) : sends (visible a) = sends a.
Proof.
  induction a as [|x a IH]; [reflexivity|].
  destruct x; simpl; now rewrite ?IH.
Qed.

Lemma sends_map_Send (l : list ConvertibleDoc) : sends (map Send l) = l.
Proof. induction l as [|d l IH]; simpl; now rewrite ?IH. Qed.

Lemma errors_map_Send (l : list ConvertibleDoc) : errors (map Send l) = [].
Proof. induction l as [|d l IH]; simpl; now rewrite ?IH. Qed.

Section ProducerFacts.

Context {R : Type} `{InputReaderLaws R}.

(** Running [n + m] steps is running [n] steps and then [m]. *)
Lemma run_app (n m : nat) :
  forall (p : Producer R) (st : io.Store),
    run (n + m) p st =
    let '(a1, p1, st1) := run n p st in
    let '(a2, p2, st2) := run m p1 st1 in
    (a1 ++ a2, p2, st2).
Proof.
  induction n as [|n IH]; intros p st.
  - simpl. now destruct (run m p st) as [[a2 p2] st2].
  - simpl. destruct (producer_step p st) as [[[a p'] st']|] eqn:E.
    + rewrite IH.
      destruct (run n p' st') as [[a1 p1] st1].
      now destruct (run m p1 st1) as [[a2 p2] st2].
    + destruct m as [|m]; [reflexivity|].
      simpl. now rewrite E.
Qed.

Lemma run_S (n : nat) (p : Producer R) (st : io.Store) :
  run (S n) p st =
  let '(acts, p1, st1) := run n p st in
  match producer_step p1 st1 with
  | None => (acts, p1, st1)
  | Some (a, p2, st2) => (acts ++ [a], p2, st2)
  end.
Proof.
  replace (S n) with (n + 1)%nat by lia. rewrite run_app.
  destruct (run n p st) as [[acts p1] st1]. simpl.
  destruct (producer_step p1 st1) as [[[a p2] st2]|]; [reflexivity|].
  now rewrite app_nil_r.
Qed.

Ltac trace_simpl :=
  rewrite ?sends_app, ?visible_app, ?errors_app, ?length_app, ?map_app;
  cbn [sends visible errors List.length map];
  rewrite ?app_nil_r, ?Nat.add_0_r.

Lemma trace_ok_step (from : Z) (acts : list Action) (p : Producer R) (st : io.Store)
      (a : Action) (p' : Producer R) (st' : io.Store) :
  trace_ok from acts p ->
  producer_step p st = Some (a, p', st') ->
  trace_ok from (acts ++ [a]) p'.
Proof.
  intros [Hidx Hpc] Hstep. unfold producer_step in Hstep.
  destruct (at_ p) eqn:Eat.
  - (* AtRead *)
    destruct Hpc as [Hvis Hnum].
    destruct (read_entry (reader p) st) as [[[[e|] r'] st0]|] eqn:Eread;
      [| |discriminate];
      pose proof (read_entry_numProcessed _ _ _ _ _ Eread) as Hsame.
    + destruct (is_EOF e) eqn:Eeof; inversion Hstep; subst; clear Hstep;
        unfold trace_ok; cbn [at_ err reader]; trace_simpl;
        (split; [exact Hidx|]); exists e.
      * split; [reflexivity|].
        unfold read_error_sent. now rewrite Eeof, app_nil_r.
      * split; [reflexivity|]. split; [exact Eeof|]. split; [exact Hvis|].
        now rewrite incr_numProcessed_spec, Hsame, Hnum, uint64_add_l.
    + inversion Hstep; subst; clear Hstep.
      unfold trace_ok; cbn [at_ err reader]; trace_simpl.
      split; [exact Hidx|]. split; [exact Hvis | congruence].
  - (* AtSendErr *)
    destruct Hpc as (e & He & Heof & Hvis & Hnum).
    rewrite He in Hstep. inversion Hstep; subst; clear Hstep.
    unfold trace_ok; cbn [at_ err reader]; trace_simpl.
    split; [exact Hidx|]. exists e. split; [reflexivity|].
    unfold read_error_sent. now rewrite Heof, Hvis, Hnum.
  - (* AtClose *)
    destruct Hpc as (e & He & Hvis).
    inversion Hstep; subst; clear Hstep.
    unfold trace_ok; cbn [at_ err reader]; trace_simpl.
    split; [exact Hidx|]. exists e. split; [assumption|].
    now rewrite Hvis, <- app_assoc.
  - (* AtSend *)
    destruct Hpc as [Hvis Hnum].
    inversion Hstep; subst; clear Hstep.
    unfold trace_ok; cbn [at_ err reader]; trace_simpl.
    split; [|split].
    + rewrite Nat.add_1_r, seq_S, map_app, Hidx. cbn [map Nat.add].
      now rewrite entry_doc_index, Hnum.
    + now rewrite Hvis.
    + rewrite incr_numProcessed_spec, Hnum, uint64_add_l.
      f_equal. lia.
  - discriminate.
Qed.

Lemma run_trace_ok (n : nat) :
  forall (r : R) (st : io.Store) acts p st',
    numProcessed r = uint64 (numProcessed r) ->
    run n (start r) st = (acts, p, st') ->
    trace_ok (numProcessed r) acts p.
Proof.
  induction n as [|n IH]; intros r st acts p st' Hrange Hrun.
  - simpl in Hrun. inversion Hrun; subst.
    split; [reflexivity|]. cbn. split; [reflexivity|].
    now rewrite Z.add_0_r.
  - rewrite run_S in Hrun.
    destruct (run n (start r) st) as [[acts1 p1] st1] eqn:E1.
    specialize (IH _ _ _ _ _ Hrange E1).
    destruct (producer_step p1 st1) as [[[a p2] st2]|] eqn:E2.
    + inversion Hrun; subst. eapply trace_ok_step; eassumption.
    + inversion Hrun; subst. exact IH.
Qed.

End ProducerFacts.

(** ** The TSV reader on lines *)

Section TSVFacts.

Local Open Scope nat_scope.

Lemma ReadString_spec (delim : ascii) (b : bufio.Reader) (st : io.Store) :
  bufio.err b = None ->
  exists line e b' st',
    bufio.ReadString delim b st = Some (line, e, b', st') /\
    read_through (bufio.rd b) st st' /\
    bufio.rd b' = bufio.rd b /\
    bufio.err b' = None /\
    match strings.IndexByte (bufio.buf b ++ io.pending (io.in_obj st)) delim with
    | Some i =>
        line = firstn (S i) (bufio.buf b ++ io.pending (io.in_obj st)) /\
        e = None /\
        bufio.buf b' ++ io.pending (io.in_obj st') =
        skipn (S i) (bufio.buf b ++ io.pending (io.in_obj st))
    | None =>
        line = bufio.buf b ++ io.pending (io.in_obj st) /\
        e = Some (io.final (io.in_obj st)) /\
        bufio.buf b' = [] /\ io.pending (io.in_obj st') = []
    end.
Proof.
  intros Herr.
  destruct (ReadString_loop_spec (bufio.ReadString_fuel st) delim [] b st)
    as (line & e & b' & st' & Hrun & Hthrough & Hrd & _ & Herr' & Hres).
  - intros e He. congruence.
  - unfold ReadString_measure, bufio.ReadString_fuel. rewrite Herr.
    destruct (bufio.defaultBufSize <=? List.length (bufio.buf b)); lia.
  - exists line, e, b', st'. split; [exact Hrun|].
    split; [exact Hthrough|]. split; [exact Hrd|]. split; [now apply Herr'|].
    destruct (strings.IndexByte _ delim); [exact Hres|].
    now destruct Hres as (-> & -> & Hb & Hp & _).
Qed.

Lemma TSV_read_entry_spec (r : TSVInputReader.t) (st : io.Store) :
  tsv_ok r ->
  exists e r' st',
    TSVInputReader.read_entry r st = Some (e, r', st') /\
    tsv_ok r' /\
    TSVInputReader.fields r' = TSVInputReader.fields r /\
    TSVInputReader.numProcessed r' = TSVInputReader.numProcessed r /\
    io.szCount_bytesRead st' = io.szCount_bytesRead st /\
    io.final (io.in_obj st') = io.final (io.in_obj st) /\
    match strings.IndexByte (tsv_stream r st) entryDelimiter with
    | Some i =>
        e = None /\
        TSVInputReader.tsvRecord r' = firstn (S i) (tsv_stream r st) /\
        tsv_stream r' st' = skipn (S i) (tsv_stream r st)
    | None =>
        e = Some (io.final (io.in_obj st)) /\
        TSVInputReader.tsvRecord r' = tsv_stream r st /\
        tsv_stream r' st' = [] /\ io.pending (io.in_obj st') = []
    end.
Proof.
  intros [Herr Hrd].
  destruct (ReadString_spec entryDelimiter (TSVInputReader.tsvReader r) st Herr)
    as (line & e & b' & st' & Hrun & [Hfin Hcount] & Hrd' & Herr' & Hres).
  unfold TSVInputReader.read_entry. rewrite Hrun.
  do 3 eexists. split; [reflexivity|].
  split; [split; cbn; congruence|].
  split; [reflexivity|]. split; [reflexivity|].
  rewrite Hrd in Hcount. split; [exact Hcount|]. split; [exact Hfin|].
  unfold tsv_stream. cbn.
  destruct (strings.IndexByte _ entryDelimiter).
  - destruct Hres as (-> & -> & Hrest). now repeat split.
  - destruct Hres as (-> & -> & Hb & Hp). rewrite Hb, Hp. now repeat split.
Qed.

Lemma cut_line (l rest : bytes) :
  is_line l ->
  exists i, strings.IndexByte (l ++ rest) entryDelimiter = Some i /\
            firstn (S i) (l ++ rest) = l /\ skipn (S i) (l ++ rest) = rest.
Proof.
  intros (body & -> & Hbody). exists (List.length body).
  split; [now apply IndexByte_line|].
  assert (Hlen : S (List.length body) = List.length (body ++ [LF]))
    by (rewrite length_app; simpl; lia).
  rewrite Hlen. split.
  - rewrite firstn_app, firstn_all, Nat.sub_diag. simpl. now rewrite app_nil_r.
  - rewrite skipn_app, skipn_all, Nat.sub_diag. reflexivity.
Qed.

Lemma visible_sending (docs : list ConvertibleDoc) :
  visible (sending docs) = map Send docs.
Proof. induction docs as [|d docs IH]; simpl; now rewrite ?IH. Qed.

(** Complete lines: two steps each, one record each, and the goroutine is
    back at its read with the rest of the input before it. *)
Lemma tsv_run_lines (lines : list bytes) :
  forall (r : TSVInputReader.t) (st : io.Store) (rest : bytes),
    tsv_ok r ->
    tsv_stream r st = List.concat lines ++ rest ->
    Forall is_line lines ->
    exists r' st',
      run (2 * List.length lines) (start r) st =
      (sending (tsv_records (TSVInputReader.fields r)
                            (TSVInputReader.numProcessed r) lines),
       start r', st') /\
      tsv_ok r' /\
      tsv_stream r' st' = rest /\
      TSVInputReader.fields r' = TSVInputReader.fields r /\
      io.szCount_bytesRead st' = io.szCount_bytesRead st /\
      io.final (io.in_obj st') = io.final (io.in_obj st).
Proof.
  induction lines as [|l lines IH]; intros r st rest Hok Hstream Hlines.
  - exists r, st. simpl in *.
    split; [reflexivity|]. split; [exact Hok|]. now repeat split.
  - inversion Hlines as [|? ? Hl Hrest]; subst.
    destruct (TSV_read_entry_spec r st Hok)
      as (e & r1 & st1 & Hread & Hok1 & Hf1 & Hn1 & Hc1 & Hfin1 & Hres).
    simpl in Hstream. rewrite <- app_assoc in Hstream.
    destruct (cut_line l (List.concat lines ++ rest) Hl) as (i & Hi & Hfirst & Hskip).
    rewrite Hstream, Hi, Hfirst, Hskip in Hres.
    destruct Hres as (-> & Hrec & Hstream1).
    destruct (IH (TSVInputReader.incr_numProcessed r1) st1 rest)
      as (r' & st' & Hrun & Hok' & Hstream' & Hf' & Hc' & Hfin'); try assumption.
    exists r', st'.
    replace (2 * List.length (l :: lines)) with (S (S (2 * List.length lines)))
      by (simpl; lia).
    cbn [run]. unfold producer_step at 1. cbn [at_ start reader read_entry TSV_InputReader].
    rewrite Hread.
    unfold producer_step at 1.
    cbn [at_ start reader err entry_doc incr_numProcessed TSV_InputReader].
    unfold start in Hrun. rewrite Hrun.
    cbn [tsv_records sending flat_map app].
    unfold TSVInputReader.entry_doc. rewrite Hf1, Hrec, Hn1.
    cbn in Hf' |- *. rewrite Hf1, Hn1.
    split; [reflexivity|].
    split; [exact Hok'|]. split; [exact Hstream'|].
    split; [congruence|]. split; congruence.
Qed.

(** At the end of the input: what is left has no line end in it. *)
Lemma tsv_run_end (r : TSVInputReader.t) (st : io.Store) :
  tsv_ok r ->
  strings.IndexByte (tsv_stream r st) entryDelimiter = None ->
  exists r' st',
    run 3 (start r) st =
    (Tau :: read_error_sent (TSVInputReader.numProcessed r) 0
                            (io.final (io.in_obj st)) ++ [Close],
     {| reader := r'; err := Some (io.final (io.in_obj st)); at_ := Returned |},
     st') /\
    TSVInputReader.tsvRecord r' = tsv_stream r st /\
    TSVInputReader.fields r' = TSVInputReader.fields r /\
    io.pending (io.in_obj st') = [] /\
    io.szCount_bytesRead st' = io.szCount_bytesRead st.
Proof.
  intros Hok Hnone.
  destruct (TSV_read_entry_spec r st Hok)
    as (e & r1 & st1 & Hread & Hok1 & Hf1 & Hn1 & Hc1 & Hfin1 & Hres).
  rewrite Hnone in Hres. destruct Hres as (-> & Hrec & _ & Hp).
  unfold read_error_sent.
  cbn [run]. unfold producer_step at 1. cbn [at_ start reader read_entry TSV_InputReader].
  rewrite Hread.
  destruct (is_EOF (io.final (io.in_obj st))) eqn:Eeof.
  - unfold producer_step at 1. cbn [at_ reader err].
    unfold producer_step at 1. cbn [at_ reader err].
    exists r1, st1. now repeat split.
  - unfold producer_step at 1. cbn [at_ reader err].
    unfold producer_step at 1. cbn [at_ reader err].
    exists (TSVInputReader.incr_numProcessed r1), st1.
    cbn. rewrite Hn1, Z.add_0_r.
    now repeat split.
Qed.

End TSVFacts.

(** ** Headers *)

Section HeaderFacts.

Local Open Scope nat_scope.

Lemma bytes_eqb_eq (a b : bytes) : bytes_eqb a b = true <-> a = b.
Proof.
  unfold bytes_eqb. destruct (list_eq_dec ascii_dec a b); split; congruence.
Qed.

Lemma has_duplicate_NoDup (l : list bytes) : has_duplicate l = false <-> NoDup l.
Proof.
  induction l as [|f l IH]; simpl.
  - split; [constructor | reflexivity].
  - rewrite orb_false_iff, IH. split.
    + intros [Hex Hnd]. constructor; [|assumption].
      intros Hin.
      assert (Ht : existsb (bytes_eqb f) l = true);
        [|rewrite Ht in Hex; discriminate].
      apply existsb_exists. exists f.
      split; [assumption | now apply bytes_eqb_eq].
    + intros Hnd. inversion Hnd; subst. split; [|assumption].
      destruct (existsb (bytes_eqb f) l) eqn:E; [|reflexivity].
      apply existsb_exists in E. destruct E as (x & Hx & Heq).
      apply bytes_eqb_eq in Heq. subst. contradiction.
Qed.

Lemma no_empty_name (l : list bytes) : existsb is_empty l = false <-> ~ In [] l.
Proof.
  induction l as [|f l IH]; simpl.
  - tauto.
  - rewrite orb_false_iff, IH. destruct f; simpl; split.
    + intros [H _]. discriminate.
    + intros H. exfalso. apply H. now left.
    + intros [_ H] [H'|H']; [discriminate | contradiction].
    + intros H. split; [reflexivity|]. tauto.
Qed.

(** The validator taken from the spec accepts exactly the non-empty lists
    of distinct, non-empty names. *)
Lemma validateReaderFields_None (l : list bytes) :
  validateReaderFields l = None <-> l <> [] /\ ~ In [] l /\ NoDup l.
Proof.
  unfold validateReaderFields.
  destruct l as [|f l]; [simpl; split; [discriminate | intros [H _]; congruence]|].
  cbn [List.length Nat.eqb].
  destruct (existsb is_empty (f :: l)) eqn:E1.
  - split; [discriminate|]. intros (_ & H & _).
    apply no_empty_name in H. congruence.
  - destruct (has_duplicate (f :: l)) eqn:E2.
    + split; [discriminate|]. intros (_ & _ & H).
      apply has_duplicate_NoDup in H. congruence.
    + split; [|reflexivity]. intros _. split; [discriminate|].
      split; [now apply no_empty_name | now apply has_duplicate_NoDup].
Qed.

(** The loop of the TSV header: one name appended per turn, nothing else
    touched. *)
Lemma TSV_header_loop (tokens : list bytes) :
  forall c : TSVInputReader.t,
    let c' :=
      fold_left
        (fun c field =>
           TSVInputReader.set_fields
             (TSVInputReader.fields c ++ [strings.TrimRight field crlf]) c)
        tokens c in
    TSVInputReader.fields c' =
    TSVInputReader.fields c ++ map (fun f => strings.TrimRight f crlf) tokens /\
    TSVInputReader.tsvReader c' = TSVInputReader.tsvReader c /\
    TSVInputReader.numProcessed c' = TSVInputReader.numProcessed c.
Proof.
  induction tokens as [|t tokens IH]; intros c; simpl.
  - now rewrite app_nil_r.
  - destruct (IH (TSVInputReader.set_fields
                    (TSVInputReader.fields c ++ [strings.TrimRight t crlf]) c))
      as (Hf & Hr & Hn).
    rewrite Hf, Hr, Hn. simpl. now rewrite <- app_assoc.
Qed.

Lemma TSV_header_spec (r : TSVInputReader.t) (st : io.Store) :
  tsv_ok r ->
  exists res r' st',
    TSVInputReader.ReadAndValidateHeader r st = Some (res, r', st') /\
    tsv_ok r' /\
    TSVInputReader.numProcessed r' = TSVInputReader.numProcessed r /\
    io.szCount_bytesRead st' = io.szCount_bytesRead st /\
    match strings.IndexByte (tsv_stream r st) entryDelimiter with
    | Some i =>
        TSVInputReader.fields r' =
        TSVInputReader.fields r ++
        tsv_header_names (firstn (S i) (tsv_stream r st)) /\
        res = validateReaderFields (TSVInputReader.fields r') /\
        tsv_stream r' st' = skipn (S i) (tsv_stream r st)
    | None =>
        res = Some (io.final (io.in_obj st)) /\
        TSVInputReader.fields r' = TSVInputReader.fields r
    end.
Proof.
  intros [Herr Hrd].
  destruct (ReadString_spec entryDelimiter (TSVInputReader.tsvReader r) st Herr)
    as (line & e & b' & st' & Hrun & [Hfin Hcount] & Hrd' & Herr' & Hres).
  unfold TSVInputReader.ReadAndValidateHeader. rewrite Hrun.
  rewrite Hrd in Hcount. unfold tsv_stream.
  destruct (strings.IndexByte _ entryDelimiter) as [i|].
  - destruct Hres as (-> & -> & Hrest).
    destruct (TSV_header_loop
                (strings.Split
                   (firstn (S i) (bufio.buf (TSVInputReader.tsvReader r)
                                  ++ io.pending (io.in_obj st))) tokenSeparator)
                (TSVInputReader.set_tsvReader b' r)) as (Hf & Hr & Hn).
    do 3 eexists. split; [reflexivity|].
    split; [split; rewrite Hr; cbn; congruence|].
    split; [now rewrite Hn|]. split; [exact Hcount|].
    split; [now rewrite Hf|]. split; [reflexivity|].
    rewrite Hr. exact Hrest.
  - destruct Hres as (-> & -> & Hb & Hp).
    do 3 eexists. split; [reflexivity|].
    split; [split; cbn; congruence|].
    split; [reflexivity|]. split; [exact Hcount|].
    now split.
Qed.

End HeaderFacts.

Lemma NewTSVInputReader_ok (fs : list bytes) (src : io.Source) (nd : Z) :
  tsv_ok (fst (NewTSVInputReader fs src nd)) /\
  tsv_stream (fst (NewTSVInputReader fs src nd)) (snd (NewTSVInputReader fs src nd))
  = io.pending src.
Proof. repeat split. Qed.

(** The whole run of the TSV goroutine on complete lines followed by a
    rest without line end: a record per line, then the end of the loop. *)
Lemma tsv_run_all (fs : list bytes) (nd : Z) (lines : list bytes)
      (partial : bytes) (e : error) :
  Forall is_line lines ->
  ~ In LF partial ->
  exists np r' st',
    run (2 * List.length lines + 3)
        (start (fst (NewTSVInputReader fs (io.source (List.concat lines ++ partial) e) nd)))
        (snd (NewTSVInputReader fs (io.source (List.concat lines ++ partial) e) nd)) =
    (sending (tsv_records fs 0 lines) ++ Tau :: read_error_sent np 0 e ++ [Close],
     {| reader := r'; err := Some e; at_ := Returned |}, st') /\
    TSVInputReader.tsvRecord r' = partial /\
    TSVInputReader.fields r' = fs /\
    io.pending (io.in_obj st') = [] /\
    io.szCount_bytesRead st' = 0.
Proof.
  intros Hlines Hpartial.
  set (rs := NewTSVInputReader fs (io.source (List.concat lines ++ partial) e) nd).
  destruct (NewTSVInputReader_ok fs (io.source (List.concat lines ++ partial) e) nd)
    as [Hok Hstream].
  fold rs in Hok, Hstream.
  destruct (tsv_run_lines lines (fst rs) (snd rs) partial Hok Hstream Hlines)
    as (r1 & st1 & Hrun1 & Hok1 & Hstream1 & Hf1 & Hc1 & Hfin1).
  assert (Hnone : strings.IndexByte (tsv_stream r1 st1) entryDelimiter = None)
    by (rewrite Hstream1; now apply IndexByte_None).
  destruct (tsv_run_end r1 st1 Hok1 Hnone)
    as (r2 & st2 & Hrun2 & Hrec2 & Hf2 & Hp2 & Hc2).
  exists (TSVInputReader.numProcessed r1), r2, st2.
  rewrite run_app, Hrun1, Hrun2.
  rewrite Hfin1. cbn [rs NewTSVInputReader fst snd io.final io.in_obj io.source
                      TSVInputReader.fields TSVInputReader.numProcessed].
  change (uint64 0) with 0%Z.
  split; [reflexivity|].
  split; [congruence|]. split; [rewrite Hf2, Hf1; reflexivity|].
  split; [exact Hp2|]. rewrite Hc2, Hc1. reflexivity.
Qed.

Lemma run_Returned {R : Type} `{InputReader R} (m : nat) (p : Producer R) (st : io.Store) :
  at_ p = Returned -> run m p st = ([], p, st).
Proof.
  intros Hat. destruct m as [|m]; [reflexivity|].
  simpl. unfold producer_step. now rewrite Hat.
Qed.

(** The sibling path: read through [szCount], as the CSV reader's buffered
    reader is, a line read adds to the count what it takes from the
    source. *)
Lemma ReadString_on_szCount_counts (delim : ascii) (b : bufio.Reader) (st : io.Store) :
  bufio.rd b = io.ref_szCount ->
  bufio.err b = None ->
  exists line e b' st',
    bufio.ReadString delim b st = Some (line, e, b', st') /\
    io.Size st' + Z.of_nat (List.length (io.pending (io.in_obj st')))
    = io.Size st + Z.of_nat (List.length (io.pending (io.in_obj st))).
Proof.
  intros Hrd Herr.
  destruct (ReadString_spec delim b st Herr)
    as (line & e & b' & st' & Hrun & [_ Hcount] & _).
  rewrite Hrd in Hcount.
  exists line, e, b', st'. split; [exact Hrun | exact Hcount].
Qed.

Lemma sends_sending (docs : list ConvertibleDoc) : sends (sending docs) = docs.
Proof. induction docs as [|d docs IH]; simpl; now rewrite ?IH. Qed.

Lemma errors_sending (docs : list ConvertibleDoc) : errors (sending docs) = [].
Proof. induction docs as [|d docs IH]; simpl; now rewrite ?IH. Qed.

Lemma tsv_records_length (fs : list bytes) (lines : list bytes) :
  forall from, List.length (tsv_records fs from lines) = List.length lines.
Proof. induction lines as [|l lines IH]; intros from; simpl; now rewrite ?IH. Qed.


(** ** Indices and read errors, for any input reader *)

Section CountingFacts.

Context {R : Type} `{InputReaderLaws R}.

Lemma indices_from_zero (r : R) (st : io.Store) (n i : nat) (d : ConvertibleDoc) :
  numProcessed r = 0 ->
  nth_error (sends (fst (fst (run n (start r) st)))) i = Some d ->
  doc_index d = uint64 (Z.of_nat i).
Proof.
  intros Hzero Hnth.
  destruct (run n (start r) st) as [[acts p] st'] eqn:Erun.
  cbn [fst] in Hnth.
  assert (Hrange : numProcessed r = uint64 (numProcessed r)) by now rewrite Hzero.
  destruct (run_trace_ok n r st acts p st' Hrange Erun) as [Hidx _].
  rewrite Hzero in Hidx.
  assert (Hlt : (i < List.length (sends acts))%nat)
    by (apply nth_error_Some; congruence).
  apply (map_nth_error doc_index) in Hnth.
  rewrite Hidx, nth_error_map in Hnth.
  rewrite (nth_error_nth' _ O) in Hnth by now rewrite length_seq.
  rewrite seq_nth in Hnth by exact Hlt.
  cbn in Hnth. now inversion Hnth.
Qed.

(** How the loop ends once a read has returned an error. *)
Lemma read_failure_ends_run (r : R) (st : io.Store) (n : nat)
      (acts : list Action) (p1 : Producer R) (st1 : io.Store)
      (e : error) (r2 : R) (st2 : io.Store) :
  numProcessed r = 0 ->
  run n (start r) st = (acts, p1, st1) ->
  at_ p1 = AtRead ->
  read_entry (reader p1) st1 = Some (Some e, r2, st2) ->
  exists acts' p',
    (forall m : nat, run (n + 3 + m) (start r) st = (acts', p', st2)) /\
    at_ p' = Returned /\
    err p' = Some e /\
    sends acts' = sends acts /\
    visible acts' =
    map Send (sends acts) ++
    (if is_EOF e then []
     else [SendErr (Errorf_read (uint64 (Z.of_nat (List.length (sends acts)) + 1)) e)])
    ++ [Close].
Proof.
  intros Hzero Hrun Hat Hread.
  assert (Htail : exists tail p',
             run 3 p1 st1 = (tail, p', st2) /\ at_ p' = Returned /\
             err p' = Some e /\ sends tail = []).
  { cbn [run]. unfold producer_step at 1. rewrite Hat, Hread.
    destruct (is_EOF e).
    - unfold producer_step at 1. cbn [at_ reader err].
      unfold producer_step at 1. cbn [at_ reader err].
      do 2 eexists. split; [reflexivity|]. now repeat split.
    - unfold producer_step at 1. cbn [at_ reader err].
      unfold producer_step at 1. cbn [at_ reader err].
      do 2 eexists. split; [reflexivity|]. now repeat split. }
  destruct Htail as (tail & p' & Htail & Hat' & Herr' & Hsends).
  assert (Hall : run (n + 3) (start r) st = (acts ++ tail, p', st2))
    by now rewrite run_app, Hrun, Htail.
  assert (Hrange : numProcessed r = uint64 (numProcessed r)) by now rewrite Hzero.
  destruct (run_trace_ok _ r st _ _ _ Hrange Hall) as [_ Hpc].
  rewrite Hat' in Hpc. destruct Hpc as (e' & He' & Hvis).
  assert (e' = e) by congruence. subst e'.
  exists (acts ++ tail), p'.
  split; [|split; [exact Hat'|split; [exact Herr'|split]]].
  - intros m. rewrite run_app, Hall. now rewrite run_Returned, app_nil_r.
  - now rewrite sends_app, Hsends, app_nil_r.
  - rewrite Hvis, sends_app, Hsends, app_nil_r.
    unfold read_error_sent. now rewrite Hzero, Z.add_0_l.
Qed.

End CountingFacts.

(** ** The goroutine and the caller together *)

Section SystemFacts.

Context {R : Type} `{InputReaderLaws R}.

Lemma sys_ok_start (r0 : R) (st0 : io.Store) (o : bool) (s0 : System R) :
  StreamDocument r0 st0 o = Some s0 -> sys_ok r0 st0 s0.
Proof.
  unfold StreamDocument. destruct (numDecoders r0 <? 0); [discriminate|].
  intros Heq. inversion Heq; subst. exists O, []. cbn.
  repeat split; [lia | constructor].
Qed.

Ltac sys_simpl :=
  unfold accepted;
  cbn [producer store ordered capacity queue closed received main errChan
       terminalError];
  rewrite ?sends_app, ?errors_app, ?map_app;
  cbn [sends errors map main_sent];
  rewrite ?app_nil_r.

Lemma sys_ok_step (r0 : R) (st0 : io.Store) (m : move) (s s' : System R) :
  sys_ok r0 st0 s -> sys_step m s = Some s' -> sys_ok r0 st0 s'.
Proof.
  intros (n & acts & Hrun & Hadm & Hcap & Hperm) Hstep.
  unfold accepted in Hadm.
  destruct m; cbn [sys_step] in Hstep.
  - (* the goroutine *)
    unfold producer_move in Hstep.
    destruct (producer_step (producer s) (store s)) as [[[a p'] st']|] eqn:Estep;
      [|discriminate].
    assert (Hrun' : run (S n) (start r0) st0 = (acts ++ [a], p', st'))
      by now rewrite run_S, Hrun, Estep.
    destruct a.
    + inversion Hstep; subst; clear Hstep.
      exists (S n), (acts ++ [Tau]). sys_simpl. now repeat split.
    + destruct (List.length (queue s) <? capacity s)%nat eqn:Eroom.
      * apply Nat.ltb_lt in Eroom.
        inversion Hstep; subst; clear Hstep.
        exists (S n), (acts ++ [Send d]). sys_simpl.
        split; [exact Hrun'|]. split; [now rewrite app_assoc, Hadm|].
        split; [rewrite length_app; simpl; lia | exact Hperm].
      * destruct (capacity s) eqn:Ecap; [|discriminate].
        destruct (main s) eqn:Emain; try discriminate.
        inversion Hstep; subst; clear Hstep.
        assert (Hq : queue s = [])
          by (destruct (queue s); [reflexivity | simpl in Hcap; lia]).
        exists (S n), (acts ++ [Send d]). sys_simpl.
        rewrite Hq, app_nil_r in Hadm. rewrite Hq, app_nil_r.
        cbn [main_sent] in Hperm. rewrite app_nil_r in Hperm.
        split; [exact Hrun'|]. split; [now rewrite Hadm|].
        split; [simpl; lia | exact Hperm].
    + inversion Hstep; subst; clear Hstep.
      exists (S n), (acts ++ [SendErr e]). sys_simpl.
      split; [exact Hrun'|]. split; [exact Hadm|]. split; [exact Hcap|].
      rewrite <- app_assoc. cbn [app].
      apply Permutation_trans with (Some e :: errChan s);
        [apply Permutation_sym, Permutation_cons_append|].
      apply Permutation_cons_app. exact Hperm.
    + inversion Hstep; subst; clear Hstep.
      exists (S n), (acts ++ [Close]). sys_simpl. now repeat split.
  - (* the engine takes a record *)
    destruct (main s) eqn:Emain; try discriminate.
    destruct (queue s) as [|d q] eqn:Eq; [discriminate|].
    inversion Hstep; subst; clear Hstep.
    exists n, acts. sys_simpl. cbn [main_sent] in Hperm.
    rewrite app_nil_r in Hperm.
    split; [exact Hrun|]. split; [now rewrite <- app_assoc|].
    split; [simpl in Hcap; lia | exact Hperm].
  - (* a conversion fails *)
    destruct (main s) eqn:Emain; try discriminate.
    inversion Hstep; subst; clear Hstep.
    exists n, acts. sys_simpl. cbn [main_sent] in Hperm.
    rewrite app_nil_r in Hperm. now repeat split.
  - (* streamDocuments returns *)
    destruct (main s) eqn:Emain; try discriminate.
    inversion Hstep; subst; clear Hstep.
    exists n, acts. sys_simpl. cbn [main_sent] in Hperm.
    rewrite app_nil_r in Hperm. now repeat split.
  - (* the caller sends the result *)
    destruct (main s) eqn:Emain; try discriminate.
    inversion Hstep; subst; clear Hstep.
    exists n, acts. sys_simpl.
    split; [exact Hrun|]. split; [exact Hadm|]. split; [exact Hcap|].
    cbn [main_sent] in Hperm. rewrite app_nil_r in Hperm.
    now apply Permutation_app_tail.
Qed.

Lemma sys_ok_exec (r0 : R) (st0 : io.Store) (sched : list move) :
  forall s s' : System R,
    sys_ok r0 st0 s -> exec sched s = Some s' -> sys_ok r0 st0 s'.
Proof.
  induction sched as [|m sched IH]; intros s s' Hok Hexec; simpl in Hexec.
  - now inversion Hexec; subst.
  - destruct (sys_step m s) as [s1|] eqn:Estep; [|discriminate].
    eapply IH; [|exact Hexec]. eapply sys_ok_step; eassumption.
Qed.

End SystemFacts.

Section ErrorChannelFacts.

Context {R : Type} `{InputReaderLaws R}.

Lemma trace_ok_errors (from : Z) (acts : list Action) (p : Producer R) :
  trace_ok from acts p ->
  errors acts = read_errors_of from (List.length (sends acts)) p.
Proof.
  intros [_ Hpc]. rewrite <- errors_visible. unfold read_errors_of.
  destruct (at_ p).
  - destruct Hpc as [-> _]. now rewrite errors_map_Send.
  - destruct Hpc as (e & _ & _ & -> & _). now rewrite errors_map_Send.
  - destruct Hpc as (e & He & ->). rewrite He, errors_app, errors_map_Send.
    unfold read_error_sent. now destruct (is_EOF e).
  - destruct Hpc as [-> _]. now rewrite errors_map_Send.
  - destruct Hpc as (e & He & ->). rewrite He, !errors_app, errors_map_Send.
    unfold read_error_sent. now destruct (is_EOF e).
Qed.

Lemma errChan_content (r : R) (st : io.Store) (o : bool)
      (s0 : System R) (sched : list move) (s : System R) :
  numProcessed r = 0 ->
  StreamDocument r st o = Some s0 ->
  exec sched s0 = Some s ->
  (List.length (errChan s) <= 2)%nat /\
  (finished s = true ->
   exists e res,
     err (producer s) = Some e /\
     main s = Done res /\
     Permutation
       (errChan s)
       ((if is_EOF e then []
         else [Some (Errorf_read (uint64 (Z.of_nat (List.length (accepted s)) + 1)) e)])
        ++ [res])).
Proof.
  intros Hzero Hstart Hexec.
  destruct (sys_ok_exec r st sched s0 s (sys_ok_start r st o s0 Hstart) Hexec)
    as (n & acts & Hrun & Hadm & _ & Hperm).
  assert (Hrange : numProcessed r = uint64 (numProcessed r)) by now rewrite Hzero.
  pose proof (trace_ok_errors _ _ _ (run_trace_ok n r st _ _ _ Hrange Hrun)) as Herrs.
  rewrite Hzero in Herrs. unfold read_errors_of in Herrs. cbn [Z.add] in Herrs.
  rewrite Herrs, <- Hadm in Hperm.
  split.
  - rewrite (Permutation_length Hperm), length_app, length_map.
    assert (List.length (main_sent (main s)) <= 1)%nat
      by (destruct (main s); simpl; lia).
    destruct (at_ (producer s)), (err (producer s)) as [e|];
      try destruct (is_EOF e); simpl; lia.
  - unfold finished. intros Hfin.
    destruct (at_ (producer s)) eqn:Eat; try discriminate.
    destruct (main s) as [| |res]; try discriminate.
    pose proof (run_trace_ok n r st _ _ _ Hrange Hrun) as [_ Hpc].
    rewrite Eat in Hpc. destruct Hpc as (e & He & _).
    rewrite He in Hperm. cbn [main_sent] in Hperm.
    exists e, res. split; [exact He|]. split; [reflexivity|].
    destruct (is_EOF e); exact Hperm.
Qed.

End ErrorChannelFacts.

Section ProducerAndCell.

Context {R : Type} `{InputReader R}.

(** The goroutine's step is the same whatever the cell holds. *)
Lemma producer_ignores_cell (s s' : System R) (cell : option error) :
  sys_step RunProducer s = Some s' ->
  exists s'',
    sys_step RunProducer (set_terminalError cell s) = Some s'' /\
    producer s'' = producer s' /\ store s'' = store s' /\
    queue s'' = queue s' /\ received s'' = received s' /\
    closed s'' = closed s' /\ errChan s'' = errChan s'.
Proof.
  cbn [sys_step]. unfold producer_move.
  cbn [set_terminalError producer store ordered capacity queue closed received
       main errChan terminalError].
  destruct (producer_step (producer s) (store s)) as [[[a p'] st']|];
    [|discriminate].
  destruct a.
  - intros Heq. inversion Heq; subst. eexists. split; [reflexivity|].
    now repeat split.
  - destruct (List.length (queue s) <? capacity s)%nat.
    + intros Heq. inversion Heq; subst. eexists. split; [reflexivity|].
      now repeat split.
    + destruct (capacity s); [|discriminate].
      destruct (main s); try discriminate.
      intros Heq. inversion Heq; subst. eexists. split; [reflexivity|].
      now repeat split.
  - intros Heq. inversion Heq; subst. eexists. split; [reflexivity|].
    now repeat split.
  - intros Heq. inversion Heq; subst. eexists. split; [reflexivity|].
    now repeat split.
Qed.

Lemma no_admission_step (m : move) (s s' : System R) :
  past_read_error (at_ (producer s)) = true ->
  sys_step m s = Some s' ->
  accepted s' = accepted s /\ past_read_error (at_ (producer s')) = true.
Proof.
  intros Hpast Hstep. unfold accepted.
  destruct m; cbn [sys_step] in Hstep.
  - unfold producer_move, producer_step in Hstep.
    destruct (at_ (producer s)) eqn:Eat; try discriminate.
    + destruct (err (producer s)); [|discriminate].
      inversion Hstep; subst. now split.
    + inversion Hstep; subst. now split.
  - destruct (main s); try discriminate.
    destruct (queue s) as [|d q] eqn:Eq; [discriminate|].
    inversion Hstep; subst. cbn. rewrite <- app_assoc. now split.
  - destruct (main s); try discriminate. inversion Hstep; subst. now split.
  - destruct (main s); try discriminate. inversion Hstep; subst. now split.
  - destruct (main s); try discriminate. inversion Hstep; subst. now split.
Qed.

Lemma no_admission_after_read_error (sched : list move) :
  forall s s' : System R,
    past_read_error (at_ (producer s)) = true ->
    exec sched s = Some s' ->
    accepted s' = accepted s.
Proof.
  induction sched as [|m sched IH]; intros s s' Hpast Hexec; simpl in Hexec.
  - now inversion Hexec.
  - destruct (sys_step m s) as [s1|] eqn:Estep; [|discriminate].
    destruct (no_admission_step m s s1 Hpast Estep) as [Hadm Hpast1].
    rewrite <- Hadm. now apply IH.
Qed.

End ProducerAndCell.

(** ** The order of the records *)

Section OrderFacts.

Context {R : Type} `{InputReaderLaws R}.

(** What a shorter run has sent is the beginning of what a run to the end
    has sent. *)
Lemma sends_run_prefix (n N : nat) (p : Producer R) (st : io.Store) :
  at_ (snd (fst (run N p st))) = Returned ->
  exists rest,
    sends (fst (fst (run N p st))) = sends (fst (fst (run n p st))) ++ rest.
Proof.
  intros Hret.
  destruct (Nat.le_gt_cases n N) as [Hle|Hgt].
  - replace N with (n + (N - n))%nat by lia.
    rewrite run_app.
    destruct (run n p st) as [[a1 p1] st1].
    destruct (run (N - n) p1 st1) as [[a2 p2] st2].
    cbn [fst]. exists (sends a2). apply sends_app.
  - exists []. rewrite app_nil_r.
    replace n with (N + (n - N))%nat by lia.
    rewrite run_app.
    destruct (run N p st) as [[a1 p1] st1]. cbn [fst snd] in *.
    rewrite run_Returned by exact Hret.
    cbn [fst]. now rewrite app_nil_r.
Qed.

(** Two runs that both come to the end are the same run. *)
Lemma run_to_the_end_same (n N : nat) (p : Producer R) (st : io.Store) :
  at_ (snd (fst (run N p st))) = Returned ->
  at_ (snd (fst (run n p st))) = Returned ->
  run n p st = run N p st.
Proof.
  assert (Hle : forall a b q s,
             (a <= b)%nat -> at_ (snd (fst (run a q s))) = Returned ->
             run b q s = run a q s).
  { intros a b q s Hab Hret.
    replace b with (a + (b - a))%nat by lia.
    rewrite run_app.
    destruct (run a q s) as [[a1 p1] st1]. cbn [fst snd] in Hret.
    rewrite run_Returned by exact Hret. now rewrite app_nil_r. }
  intros HN Hn.
  destruct (Nat.le_gt_cases n N) as [Hle'|Hgt].
  - symmetry. now apply Hle.
  - apply Hle; [lia | exact HN].
Qed.



End OrderFacts.




(** * The claims *)

(** C1, on the code: the TSV reader never counts.  Its size tracker is
    [szCount], but its buffered reader is built on [in] itself, so after
    the goroutine has used up the whole source the size reported is still
    0, not the length of the input. *)
Theorem C1_tsv_size_stays_zero
        (fs : list bytes) (nd : Z) (lines : list bytes) (partial : bytes) (e : error) :
  Forall is_line lines ->
  ~ In LF partial ->
  let input := List.concat lines ++ partial in
  let '(r, st) := NewTSVInputReader fs (io.source input e) nd in
  exists acts p' st',
    run (2 * List.length lines + 3) (start r) st = (acts, p', st') /\
    at_ p' = Returned /\
    io.pending (io.in_obj st') = [] /\
    io.Size st' = 0 /\
    (input <> [] -> io.Size st' <> Z.of_nat (List.length input)).
Proof.
  intros Hlines Hpartial input.
  destruct (tsv_run_all fs nd lines partial e Hlines Hpartial)
    as (np & r' & st' & Hrun & _ & _ & Hp & Hc).
  fold input in Hrun.
  destruct (NewTSVInputReader fs _ nd) as [r st].
  cbn [fst snd] in Hrun.
  do 3 eexists. split; [exact Hrun|].
  split; [reflexivity|]. split; [exact Hp|].
  unfold io.Size. split; [exact Hc|].
  intros Hne. rewrite Hc. destruct input; [congruence|]. simpl. lia.
Qed.

(** C1 at an input: two lines, eight bytes, all read, and a size of 0. *)
Lemma C1_witness :
  exists acts p' st',
    run 7 (start (fst (NewTSVInputReader
                         [] (io.source (tsv_line ["a"; "b"]%string ++ tsv_line ["1"; "2"]%string) EOF) 1)))
        (snd (NewTSVInputReader
                [] (io.source (tsv_line ["a"; "b"]%string ++ tsv_line ["1"; "2"]%string) EOF) 1))
    = (acts, p', st') /\
    io.pending (io.in_obj st') = [] /\
    io.Size st' = 0 /\
    List.length (tsv_line ["a"; "b"]%string ++ tsv_line ["1"; "2"]%string) = 8%nat.
Proof.
  destruct (C1_tsv_size_stays_zero
              [] 1 [tsv_line ["a"; "b"]%string; tsv_line ["1"; "2"]%string] [] EOF)
    as (acts & p' & st' & Hrun & _ & Hp & Hsize & _).
  - constructor; [|constructor; [|constructor]].
    + exists (B "a" ++ [TAB] ++ B "b"). split; [reflexivity|].
      intros Hin. vm_compute in Hin. intuition discriminate.
    + exists (B "1" ++ [TAB] ++ B "2"). split; [reflexivity|].
      intros Hin. vm_compute in Hin. intuition discriminate.
  - intros [].
  - exists acts, p', st'. split; [exact Hrun|].
    split; [exact Hp|]. split; [exact Hsize | reflexivity].
Defined.

(** C2 as stated fails.  First run: the source fails at once; the goroutine
    sends the read error, [streamDocuments] returns nil and the caller
    sends that too: two values on the error channel.  Second run: a
    conversion fails, then the next read fails; the error channel gets the
    read error and the error [streamDocuments] returned. *)
Lemma C2_counterexample :
  (exists s0 s,
      StreamDocument
        (fst (NewTSVInputReader [] (io.source [] (Failure "disk")) 1))
        (snd (NewTSVInputReader [] (io.source [] (Failure "disk")) 1)) true
      = Some s0 /\
      exec [RunProducer; RunProducer; RunProducer; EngineReturn None; MainSend] s0
      = Some s /\
      finished s = true /\
      errChan s = [Some (Errorf_read 1 (Failure "disk")); None])
  /\
  (exists s0 s,
      StreamDocument
        (fst (NewTSVInputReader [] (io.source (tsv_line ["x"]%string) (Failure "disk")) 1))
        (snd (NewTSVInputReader [] (io.source (tsv_line ["x"]%string) (Failure "disk")) 1))
        true
      = Some s0 /\
      exec [RunProducer; RunProducer; EngineReceive;
            EngineFail (Failure "conversion"); RunProducer; RunProducer;
            RunProducer; EngineReturn (Some (Failure "conversion")); MainSend] s0
      = Some s /\
      finished s = true /\
      errChan s = [Some (Errorf_read 2 (Failure "disk")); Some (Failure "conversion")]).
Proof.
  split; do 2 eexists; (split; [reflexivity|]);
    (split; [vm_compute; reflexivity|]); split; reflexivity.
Qed.

(** C2, amended: a call of [StreamDocument] puts at most two values on the
    error channel.  When both goroutines have returned, these are the value
    [streamDocuments] returned (nil or an error), sent once by the caller,
    and, when the loop ended on an error other than end-of-input, the read
    error sent by the goroutine, numbered one more than the records
    accepted; their order on the channel is not fixed. *)
Theorem C2_error_channel_values :
  (forall (r : TSVInputReader.t) (st : io.Store) (o : bool)
          (s0 : System TSVInputReader.t) (sched : list move)
          (s : System TSVInputReader.t),
      TSVInputReader.numProcessed r = 0 ->
      StreamDocument r st o = Some s0 ->
      exec sched s0 = Some s ->
      (List.length (errChan s) <= 2)%nat /\
      (finished s = true ->
       exists e res,
         err (producer s) = Some e /\
         main s = Done res /\
         Permutation
           (errChan s)
           ((if is_EOF e then []
             else [Some (Errorf_read
                           (uint64 (Z.of_nat (List.length (accepted s)) + 1)) e)])
            ++ [res])))
  /\
  (forall (C : Collaborators)
          (r : CSVInputReader.t) (st : io.Store) (o : bool)
          (s0 : System CSVInputReader.t) (sched : list move)
          (s : System CSVInputReader.t),
      CSVInputReader.numProcessed r = 0 ->
      StreamDocument r st o = Some s0 ->
      exec sched s0 = Some s ->
      (List.length (errChan s) <= 2)%nat /\
      (finished s = true ->
       exists e res,
         err (producer s) = Some e /\
         main s = Done res /\
         Permutation
           (errChan s)
           ((if is_EOF e then []
             else [Some (Errorf_read
                           (uint64 (Z.of_nat (List.length (accepted s)) + 1)) e)])
            ++ [res]))).
Proof.
  split.
  - intros r st o s0 sched s Hzero Hstart Hexec.
    exact (errChan_content r st o s0 sched s Hzero Hstart Hexec).
  - intros C r st o s0 sched s Hzero Hstart Hexec.
    exact (errChan_content r st o s0 sched s Hzero Hstart Hexec).
Qed.

(** C2 at an input: one line and then end-of-input; the only value on the
    error channel is the nil the caller sends. *)
Lemma C2_witness :
  exists s0 s,
    StreamDocument
      (fst (NewTSVInputReader [] (io.source (tsv_line ["x"]%string) EOF) 1))
      (snd (NewTSVInputReader [] (io.source (tsv_line ["x"]%string) EOF) 1)) true
    = Some s0 /\
    exec [RunProducer; RunProducer; EngineReceive; RunProducer; RunProducer;
          EngineReturn None; MainSend] s0 = Some s /\
    finished s = true /\
    Permutation (errChan s) [None].
Proof.
  pose (rs := NewTSVInputReader [] (io.source (tsv_line ["x"]%string) EOF) 1).
  pose (sched := [RunProducer; RunProducer; EngineReceive; RunProducer; RunProducer;
                  EngineReturn None; MainSend]).
  assert (Estart : exists s0, StreamDocument (fst rs) (snd rs) true = Some s0)
    by (eexists; reflexivity).
  destruct Estart as [s0 Estart].
  assert (Eexec : exists s, exec sched s0 = Some s).
  { inversion Estart; subst. eexists. vm_compute. reflexivity. }
  destruct Eexec as [s Eexec].
  destruct (proj1 C2_error_channel_values (fst rs) (snd rs) true s0 sched s
                  eq_refl Estart Eexec) as [_ Hfin].
  exists s0, s. split; [exact Estart|]. split; [exact Eexec|].
  inversion Estart; subst. clear Estart.
  vm_compute in Eexec. inversion Eexec; subst. clear Eexec.
  split; [reflexivity|].
  destruct (Hfin eq_refl) as (e & res & He & Hres & Hperm).
  cbn in He, Hres. inversion He; subst. inversion Hres; subst.
  exact Hperm.
Defined.

(** C3 as stated fails: a conversion error is latched after the first
    record, and the goroutine reads on and admits the second record. *)
Lemma C3_counterexample :
  exists s0 s1 s2,
    StreamDocument
      (fst (NewTSVInputReader
              [] (io.source (tsv_line ["x"]%string ++ tsv_line ["y"]%string) EOF) 1))
      (snd (NewTSVInputReader
              [] (io.source (tsv_line ["x"]%string ++ tsv_line ["y"]%string) EOF) 1))
      true
    = Some s0 /\
    exec [RunProducer; RunProducer; EngineReceive; EngineFail (Failure "conversion")] s0
    = Some s1 /\
    terminalError s1 = Some (Failure "conversion") /\
    accepted s1 = [TSVConvertibleDoc [] (tsv_line ["x"]%string) 0] /\
    exec [RunProducer; RunProducer] s1 = Some s2 /\
    terminalError s2 = Some (Failure "conversion") /\
    accepted s2 = [TSVConvertibleDoc [] (tsv_line ["x"]%string) 0;
                   TSVConvertibleDoc [] (tsv_line ["y"]%string) 1].
Proof.
  do 3 eexists. split; [reflexivity|].
  split; [vm_compute; reflexivity|].
  split; [reflexivity|]. split; [reflexivity|].
  split; [vm_compute; reflexivity|].
  split; reflexivity.
Qed.

(** C3, amended: the goroutine consults no terminal-error cell; its step is
    the same whatever the cell holds, so an error latched by a conversion
    does not stop it.  It stops admitting once one of its own reads has
    returned an error (end-of-input or a failure): from then on no record
    is accepted, whatever moves next.  This holds of any input reader, so
    of the CSV and of the TSV reader. *)
Theorem C3_producer_stops_on_its_own_read_error_only
        (R : Type) (I : InputReader R) :
  (forall (s s' : System R) (cell : option error),
      sys_step RunProducer s = Some s' ->
      exists s'',
        sys_step RunProducer (set_terminalError cell s) = Some s'' /\
        producer s'' = producer s' /\ store s'' = store s' /\
        queue s'' = queue s' /\ received s'' = received s' /\
        closed s'' = closed s' /\ errChan s'' = errChan s')
  /\
  (forall (sched : list move) (s s' : System R),
      past_read_error (at_ (producer s)) = true ->
      exec sched s = Some s' ->
      accepted s' = accepted s).
Proof.
  split.
  - intros s s' cell. apply producer_ignores_cell.
  - intros sched s s'. apply no_admission_after_read_error.
Qed.

(** C3 at an input: an empty source.  The first step of the goroutine is
    there with an error in the cell as without; after its read has met the
    end of the input nothing more is accepted. *)
Lemma C3_witness :
  exists s0 s0' s1 s2,
    StreamDocument
      (fst (NewTSVInputReader [] (io.source [] EOF) 1))
      (snd (NewTSVInputReader [] (io.source [] EOF) 1)) true = Some s0 /\
    sys_step RunProducer (set_terminalError (Some (Failure "conversion")) s0)
    = Some s0' /\
    sys_step RunProducer s0 = Some s1 /\
    exec [RunProducer; EngineReturn None; MainSend] s1 = Some s2 /\
    accepted s2 = accepted s1.
Proof.
  pose (rs := NewTSVInputReader [] (io.source [] EOF) 1).
  assert (Estart : exists s0, StreamDocument (fst rs) (snd rs) true = Some s0)
    by (eexists; reflexivity).
  destruct Estart as [s0 Estart].
  assert (Estep : exists s1, sys_step RunProducer s0 = Some s1
                             /\ past_read_error (at_ (producer s1)) = true).
  { inversion Estart; subst. eexists. split; vm_compute; reflexivity. }
  destruct Estep as (s1 & Estep & Hpast).
  assert (Eexec : exists s2, exec [RunProducer; EngineReturn None; MainSend] s1 = Some s2).
  { inversion Estart; subst. vm_compute in Estep. inversion Estep; subst.
    eexists. vm_compute. reflexivity. }
  destruct Eexec as [s2 Eexec].
  destruct (C3_producer_stops_on_its_own_read_error_only
              TSVInputReader.t TSV_InputReader) as [Hcell Hstop].
  destruct (Hcell s0 s1 (Some (Failure "conversion")) Estep) as (s0' & Hstep' & _).
  exists s0, s0', s1, s2.
  split; [exact Estart|]. split; [exact Hstep'|]. split; [exact Estep|].
  split; [exact Eexec|].
  exact (Hstop _ s1 s2 Hpast Eexec).
Defined.

(** C4: both constructors start the record counter at 0, and the records a
    reader sends from such a start carry 0, 1, 2, ... in the order they are
    sent: the record at position [i] (from 0) carries [i], in [uint64]. *)
Theorem C4_indices_count_from_zero :
  (forall fs src nd,
      TSVInputReader.numProcessed (fst (NewTSVInputReader fs src nd)) = 0)
  /\
  (forall fs src nd,
      CSVInputReader.numProcessed (fst (NewCSVInputReader fs src nd)) = 0)
  /\
  (forall (r : TSVInputReader.t) (st : io.Store) (n i : nat) (d : ConvertibleDoc),
      TSVInputReader.numProcessed r = 0 ->
      nth_error (sends (fst (fst (run n (start r) st)))) i = Some d ->
      doc_index d = uint64 (Z.of_nat i) /\
      (Z.of_nat i < 2 ^ 64 -> doc_index d = Z.of_nat i))
  /\
  (forall (C : Collaborators)
          (r : CSVInputReader.t) (st : io.Store) (n i : nat) (d : ConvertibleDoc),
      CSVInputReader.numProcessed r = 0 ->
      nth_error (sends (fst (fst (run n (start r) st)))) i = Some d ->
      doc_index d = uint64 (Z.of_nat i) /\
      (Z.of_nat i < 2 ^ 64 -> doc_index d = Z.of_nat i)).
Proof.
  split; [reflexivity|]. split; [reflexivity|]. split.
  - intros r st n i d Hzero Hnth.
    pose proof (indices_from_zero r st n i d Hzero Hnth) as Hi.
    split; [exact Hi|]. intros Hlt. rewrite Hi. apply uint64_small. lia.
  - intros C r st n i d Hzero Hnth.
    pose proof (indices_from_zero r st n i d Hzero Hnth) as Hi.
    split; [exact Hi|]. intros Hlt. rewrite Hi. apply uint64_small. lia.
Qed.

(** C4 at an input: of three lines the third record carries 2. *)
Lemma C4_witness :
  doc_index (TSVConvertibleDoc [] (tsv_line ["z"]%string) 2) = 2.
Proof.
  pose (rs := NewTSVInputReader
                [] (io.source (tsv_line ["x"]%string ++ tsv_line ["y"]%string
                               ++ tsv_line ["z"]%string) EOF) 1).
  destruct (proj1 (proj2 (proj2 C4_indices_count_from_zero))
                  (fst rs) (snd rs) 6%nat 2%nat
                  (TSVConvertibleDoc [] (tsv_line ["z"]%string) 2))
    as [_ Hexact].
  - reflexivity.
  - vm_compute. reflexivity.
  - apply Hexact. vm_compute. reflexivity.
Defined.

(** C5: once a read of the goroutine returns an error, having sent k-1
    records, the loop ends within three steps.  On end-of-input the record
    channel is closed and nothing goes on the error channel; on any other
    error exactly one read error goes on the error channel, numbered k, and
    then the record channel is closed. *)
Theorem C5_read_error_ends_the_records :
  (forall (r : TSVInputReader.t) (st : io.Store) (n : nat)
          (acts : list Action) (p1 : Producer TSVInputReader.t) (st1 : io.Store)
          (e : error) (r2 : TSVInputReader.t) (st2 : io.Store),
      TSVInputReader.numProcessed r = 0 ->
      run n (start r) st = (acts, p1, st1) ->
      at_ p1 = AtRead ->
      TSVInputReader.read_entry (reader p1) st1 = Some (Some e, r2, st2) ->
      exists acts' p',
        (forall m : nat, run (n + 3 + m) (start r) st = (acts', p', st2)) /\
        at_ p' = Returned /\
        err p' = Some e /\
        sends acts' = sends acts /\
        visible acts' =
        map Send (sends acts) ++
        (if is_EOF e then []
         else [SendErr
                 (Errorf_read (uint64 (Z.of_nat (List.length (sends acts)) + 1)) e)])
        ++ [Close])
  /\
  (forall (C : Collaborators)
          (r : CSVInputReader.t) (st : io.Store) (n : nat)
          (acts : list Action) (p1 : Producer CSVInputReader.t) (st1 : io.Store)
          (e : error) (r2 : CSVInputReader.t) (st2 : io.Store),
      CSVInputReader.numProcessed r = 0 ->
      run n (start r) st = (acts, p1, st1) ->
      at_ p1 = AtRead ->
      CSVInputReader.read_entry (reader p1) st1 = Some (Some e, r2, st2) ->
      exists acts' p',
        (forall m : nat, run (n + 3 + m) (start r) st = (acts', p', st2)) /\
        at_ p' = Returned /\
        err p' = Some e /\
        sends acts' = sends acts /\
        visible acts' =
        map Send (sends acts) ++
        (if is_EOF e then []
         else [SendErr
                 (Errorf_read (uint64 (Z.of_nat (List.length (sends acts)) + 1)) e)])
        ++ [Close]).
Proof.
  split.
  - intros r st n acts p1 st1 e r2 st2 Hzero Hrun Hat Hread.
    exact (read_failure_ends_run r st n acts p1 st1 e r2 st2 Hzero Hrun Hat Hread).
  - intros C r st n acts p1 st1 e r2 st2 Hzero Hrun Hat Hread.
    exact (read_failure_ends_run r st n acts p1 st1 e r2 st2 Hzero Hrun Hat Hread).
Qed.

(** C5 at an input: one line, then the source fails; the read error is
    numbered 2. *)
Lemma C5_witness :
  exists acts' p' st',
    run 5 (start (fst (NewTSVInputReader
                         [] (io.source (tsv_line ["x"]%string ++ B "y") (Failure "disk")) 1)))
        (snd (NewTSVInputReader
                [] (io.source (tsv_line ["x"]%string ++ B "y") (Failure "disk")) 1))
    = (acts', p', st') /\
    visible acts' =
    [Send (TSVConvertibleDoc [] (tsv_line ["x"]%string) 0);
     SendErr (Errorf_read 2 (Failure "disk")); Close].
Proof.
  pose (rs := NewTSVInputReader
                [] (io.source (tsv_line ["x"]%string ++ B "y") (Failure "disk")) 1).
  assert (Erun : exists acts p1 st1,
             run 2 (start (fst rs)) (snd rs) = (acts, p1, st1) /\
             at_ p1 = AtRead /\
             sends acts = [TSVConvertibleDoc [] (tsv_line ["x"]%string) 0] /\
             exists r2 st2,
               TSVInputReader.read_entry (reader p1) st1
               = Some (Some (Failure "disk"), r2, st2)).
  { do 3 eexists. split; [vm_compute; reflexivity|].
    split; [reflexivity|]. split; [reflexivity|].
    do 2 eexists. vm_compute. reflexivity. }
  destruct Erun as (acts & p1 & st1 & Erun & Hat & Hsends & r2 & st2 & Eread).
  destruct (proj1 C5_read_error_ends_the_records (fst rs) (snd rs) 2%nat
                  acts p1 st1 (Failure "disk") r2 st2
                  eq_refl Erun Hat Eread)
    as (acts' & p' & Hrun & _ & _ & _ & Hvis).
  exists acts', p', st2. split; [exact (Hrun 0%nat)|].
  rewrite Hvis, Hsends. reflexivity.
Defined.

(** C6: converting a TSV record hands [tokensToBSON] the fields, the index,
    and the tokens [Split(TrimRight(data, "\r\n"), "\t")]; these tokens are
    the line with its trailing CR and LF bytes stripped, split at every tab
    byte. *)
Theorem C6_tsv_convert_tokens `{Collaborators}
        (fields : list bytes) (d : bytes) (index : Z) :
  Convert (TSVConvertibleDoc fields d index) =
  tokensToBSON fields (strings.Split (strings.TrimRight d [CR; LF]) [TAB]) index
  /\ strings.Split (strings.TrimRight d [CR; LF]) [TAB] =
     split_on TAB (strip_trailing_terminators d).
Proof.
  split; [reflexivity|].
  change [CR; LF] with crlf.
  now rewrite TrimRight_crlf, Split_single.
Qed.




(** C8: [ReadAndValidateHeader] returns its error to the caller.  TSV: when
    the source fails or ends before a full header line, that error is
    returned and the field list is untouched; when a header line is read,
    the field list is the constructor's list followed by the header's names
    (the header's names, when the reader was constructed with none), and
    the result is the validator's verdict on it, so a duplicate name is an
    error; the header "a<TAB>a<TAB>b" is refused.  CSV: an error of the
    record read is returned as it is; otherwise the field list is the
    header record and the result is the validator's verdict on it.  In both
    the record counter stays at 0: no record has been read. *)
Theorem C8_header_errors_are_returned :
  (forall (fs : list bytes) (src : io.Source) (nd : Z),
      strings.IndexByte (io.pending src) entryDelimiter = None ->
      let '(r, st) := NewTSVInputReader fs src nd in
      exists r' st',
        TSVInputReader.ReadAndValidateHeader r st
        = Some (Some (io.final src), r', st') /\
        TSVInputReader.fields r' = fs /\
        TSVInputReader.numProcessed r' = 0)
  /\
  (forall (fs : list bytes) (src : io.Source) (nd : Z) (header rest : bytes),
      is_line header ->
      io.pending src = header ++ rest ->
      let '(r, st) := NewTSVInputReader fs src nd in
      let names :=
        fs ++ map (fun f => strings.TrimRight f crlf)
                  (strings.Split header tokenSeparator) in
      exists r' st',
        TSVInputReader.ReadAndValidateHeader r st
        = Some (validateReaderFields names, r', st') /\
        TSVInputReader.fields r' = names /\
        TSVInputReader.numProcessed r' = 0 /\
        (~ NoDup names -> validateReaderFields names <> None))
  /\
  (forall (nd : Z) (rest : bytes) (e : error),
      let '(r, st) :=
        NewTSVInputReader [] (io.source (tsv_line ["a"; "a"; "b"]%string ++ rest) e) nd in
      exists err r' st',
        TSVInputReader.ReadAndValidateHeader r st = Some (Some err, r', st'))
  /\
  (forall (C : Collaborators) (fs : list bytes) (src : io.Source) (nd : Z),
      let '(c, st) := NewCSVInputReader fs src nd in
      match csv_Read (CSVInputReader.csvReader c) st with
      | Some (record, Some e, rd', st') =>
          CSVInputReader.ReadAndValidateHeader c st
          = Some (Some e, CSVInputReader.set_csvReader rd' c, st')
      | Some (record, None, rd', st') =>
          CSVInputReader.ReadAndValidateHeader c st
          = Some (validateReaderFields record,
                  CSVInputReader.set_fields record
                    (CSVInputReader.set_csvReader rd' c), st') /\
          CSVInputReader.numProcessed
            (CSVInputReader.set_fields record
               (CSVInputReader.set_csvReader rd' c)) = 0 /\
          (~ NoDup record -> validateReaderFields record <> None)
      | None => CSVInputReader.ReadAndValidateHeader c st = None
      end)
  /\ validateReaderFields [B "a"; B "a"; B "b"] <> None.
Proof.
  assert (Hdup : forall names, ~ NoDup names -> validateReaderFields names <> None).
  { intros names Hn Hv. apply validateReaderFields_None in Hv. tauto. }
  split; [|split; [|split; [|split]]].
  - intros fs src nd Hnone.
    destruct (NewTSVInputReader_ok fs src nd) as [Hok Hstream].
    destruct (NewTSVInputReader fs src nd) as [r st] eqn:Enew.
    cbn [fst snd] in Hok, Hstream.
    destruct (TSV_header_spec r st Hok)
      as (res & r' & st' & Hrun & _ & Hn & _ & Hres).
    rewrite Hstream, Hnone in Hres. destruct Hres as [-> Hf].
    unfold NewTSVInputReader in Enew. inversion Enew; subst.
    exists r', st'. split; [exact Hrun|]. split; [exact Hf | exact Hn].
  - intros fs src nd header rest Hline Hsrc.
    destruct (NewTSVInputReader_ok fs src nd) as [Hok Hstream].
    destruct (NewTSVInputReader fs src nd) as [r st] eqn:Enew.
    cbn [fst snd] in Hok, Hstream.
    destruct (TSV_header_spec r st Hok)
      as (res & r' & st' & Hrun & _ & Hn & _ & Hres).
    destruct (cut_line header rest Hline) as (i & Hi & Hfirst & _).
    rewrite Hstream, Hsrc, Hi, Hfirst in Hres.
    destruct Hres as (Hf & -> & _).
    unfold NewTSVInputReader in Enew. inversion Enew; subst.
    cbn [TSVInputReader.fields TSVInputReader.numProcessed] in Hf, Hn.
    unfold tsv_header_names in Hf.
    exists r', st'. rewrite Hrun, Hf.
    split; [reflexivity|]. split; [reflexivity|].
    split; [exact Hn | apply Hdup].
  - intros nd rest e.
    destruct (NewTSVInputReader_ok
                [] (io.source (tsv_line ["a"; "a"; "b"]%string ++ rest) e) nd)
      as [Hok Hstream].
    destruct (NewTSVInputReader _ _ nd) as [r st] eqn:Enew.
    cbn [fst snd] in Hok, Hstream.
    destruct (TSV_header_spec r st Hok)
      as (res & r' & st' & Hrun & _ & _ & _ & Hres).
    assert (Hline : is_line (tsv_line ["a"; "a"; "b"]%string)).
    { exists (B "a" ++ [TAB] ++ B "a" ++ [TAB] ++ B "b"). split; [reflexivity|].
      intros Hin. vm_compute in Hin. intuition discriminate. }
    destruct (cut_line _ rest Hline) as (i & Hi & Hfirst & _).
    cbn [io.pending io.source] in Hstream.
    rewrite Hstream, Hi, Hfirst in Hres.
    destruct Hres as (Hf & -> & _).
    unfold NewTSVInputReader in Enew. inversion Enew; subst.
    cbn [TSVInputReader.fields] in Hf. rewrite Hf in Hrun.
    exists (Failure "duplicate field name"), r', st'. exact Hrun.
  - intros C fs src nd.
    destruct (NewCSVInputReader fs src nd) as [c st] eqn:Enew.
    unfold CSVInputReader.ReadAndValidateHeader.
    destruct (csv_Read (CSVInputReader.csvReader c) st)
      as [[[[record [e|]] rd'] st']|]; try reflexivity.
    split; [reflexivity|]. split; [|apply Hdup].
    unfold NewCSVInputReader in Enew. inversion Enew; subst. reflexivity.
  - discriminate.
Qed.

(** C8 at inputs: a TSV source that fails before any line end, and a TSV
    header that repeats a name already there. *)
Lemma C8_witness :
  (exists r' st',
      TSVInputReader.ReadAndValidateHeader
        (fst (NewTSVInputReader [] (io.source (B "a") (Failure "disk")) 1))
        (snd (NewTSVInputReader [] (io.source (B "a") (Failure "disk")) 1))
      = Some (Some (Failure "disk"), r', st'))
  /\
  (exists r' st',
      TSVInputReader.ReadAndValidateHeader
        (fst (NewTSVInputReader [] (io.source (tsv_line ["a"; "a"; "b"]%string) EOF) 1))
        (snd (NewTSVInputReader [] (io.source (tsv_line ["a"; "a"; "b"]%string) EOF) 1))
      = Some (Some (Failure "duplicate field name"), r', st')).
Proof.
  split.
  - destruct (proj1 C8_header_errors_are_returned
                    [] (io.source (B "a") (Failure "disk")) 1 eq_refl)
      as (r' & st' & Hrun & _).
    exists r', st'. exact Hrun.
  - destruct (proj1 (proj2 C8_header_errors_are_returned)
                    [] (io.source (tsv_line ["a"; "a"; "b"]%string) EOF) 1
                    (tsv_line ["a"; "a"; "b"]%string) [])
      as (r' & st' & Hrun & _).
    + exists (B "a" ++ [TAB] ++ B "a" ++ [TAB] ++ B "b"). split; [reflexivity|].
      intros Hin. vm_compute in Hin. intuition discriminate.
    + reflexivity.
    + exists r', st'. exact Hrun.
Defined.

(** C9: a TSV input whose last line has no line end.  The goroutine sends a
    record for each complete line, reads the unfinished line together with
    end-of-input, closes the record channel and returns: no record for the
    unfinished line, nothing on the error channel, and the source is used
    up. *)
Theorem C9_tsv_unterminated_last_line_dropped
        (fs : list bytes) (nd : Z) (lines : list bytes) (partial : bytes) :
  Forall is_line lines ->
  ~ In LF partial ->
  partial <> [] ->
  let '(r, st) :=
    NewTSVInputReader fs (io.source (List.concat lines ++ partial) EOF) nd in
  exists p' st',
    (forall m : nat,
        run (2 * List.length lines + 3 + m) (start r) st =
        (sending (tsv_records fs 0 lines) ++ [Tau; Close], p', st')) /\
    visible (sending (tsv_records fs 0 lines) ++ [Tau; Close]) =
    map Send (tsv_records fs 0 lines) ++ [Close] /\
    at_ p' = Returned /\
    err p' = Some EOF /\
    TSVInputReader.tsvRecord (reader p') = partial /\
    io.pending (io.in_obj st') = [].
Proof.
  intros Hlines Hpartial _.
  destruct (tsv_run_all fs nd lines partial EOF Hlines Hpartial)
    as (np & r' & st' & Hrun & Hrec & _ & Hp & _).
  destruct (NewTSVInputReader fs _ nd) as [r st].
  cbn [fst snd] in Hrun.
  exists {| reader := r'; err := Some EOF; at_ := Returned |}, st'.
  split; [|split].
  - intros m. rewrite run_app, Hrun. now rewrite run_Returned, app_nil_r.
  - now rewrite visible_app, visible_sending.
  - now repeat split.
Qed.

(** C9 at an input: the line "1<TAB>2" and then "3<TAB>4" without line end
    give one record. *)
Lemma C9_witness :
  exists p' st',
    run 5 (start (fst (NewTSVInputReader
                         [B "a"; B "b"]
                         (io.source (tsv_line ["1"; "2"]%string ++ B "3" ++ [TAB] ++ B "4") EOF) 1)))
        (snd (NewTSVInputReader
                [B "a"; B "b"]
                (io.source (tsv_line ["1"; "2"]%string ++ B "3" ++ [TAB] ++ B "4") EOF) 1))
    = ([Tau; Send (TSVConvertibleDoc [B "a"; B "b"] (tsv_line ["1"; "2"]%string) 0);
        Tau; Close], p', st') /\
    at_ p' = Returned.
Proof.
  destruct (C9_tsv_unterminated_last_line_dropped
              [B "a"; B "b"] 1 [tsv_line ["1"; "2"]%string] (B "3" ++ [TAB] ++ B "4"))
    as (p' & st' & Hrun & _ & Hat & _).
  - constructor; [|constructor].
    exists (B "1" ++ [TAB] ++ B "2"). split; [reflexivity|].
    intros Hin. vm_compute in Hin. intuition discriminate.
  - intros Hin. vm_compute in Hin. intuition discriminate.
  - discriminate.
  - exists p', st'. split; [exact (Hrun 0%nat) | exact Hat].
Defined.

(** C10: the TSV reader appends the header's names to the field list it was
    constructed with; the CSV reader replaces its field list by the header
    record. *)
Theorem C10_tsv_header_appends_csv_replaces :
  (forall (fs : list bytes) (src : io.Source) (nd : Z) (header rest : bytes),
      is_line header ->
      io.pending src = header ++ rest ->
      let '(r, st) := NewTSVInputReader fs src nd in
      exists res r' st',
        TSVInputReader.ReadAndValidateHeader r st = Some (res, r', st') /\
        TSVInputReader.fields r' =
        fs ++ map (fun f => strings.TrimRight f crlf)
                  (strings.Split header tokenSeparator))
  /\
  (forall (C : Collaborators) (fs : list bytes) (src : io.Source) (nd : Z),
      let '(c, st) := NewCSVInputReader fs src nd in
      match csv_Read (CSVInputReader.csvReader c) st with
      | Some (record, None, rd', st') =>
          exists res c',
            CSVInputReader.ReadAndValidateHeader c st = Some (res, c', st') /\
            CSVInputReader.fields c' = record
      | _ => True
      end).
Proof.
  split.
  - intros fs src nd header rest Hline Hsrc.
    destruct (NewTSVInputReader_ok fs src nd) as [Hok Hstream].
    destruct (NewTSVInputReader fs src nd) as [r st] eqn:Enew.
    cbn [fst snd] in Hok, Hstream.
    destruct (TSV_header_spec r st Hok)
      as (res & r' & st' & Hrun & _ & _ & _ & Hres).
    destruct (cut_line header rest Hline) as (i & Hi & Hfirst & _).
    rewrite Hstream, Hsrc, Hi, Hfirst in Hres.
    destruct Hres as (Hf & _ & _).
    exists res, r', st'. split; [exact Hrun|].
    rewrite Hf. unfold tsv_header_names.
    unfold NewTSVInputReader in Enew. inversion Enew; subst. reflexivity.
  - intros C fs src nd.
    destruct (NewCSVInputReader fs src nd) as [c st].
    unfold CSVInputReader.ReadAndValidateHeader.
    destruct (csv_Read (CSVInputReader.csvReader c) st)
      as [[[[record [e|]] rd'] st']|]; try exact I.
    do 2 eexists. split; reflexivity.
Qed.

(** C10 at an input: a TSV reader constructed with the field "x" reads the
    header "a<TAB>b" and holds the fields x, a, b. *)
Lemma C10_witness :
  exists res r' st',
    TSVInputReader.ReadAndValidateHeader
      (fst (NewTSVInputReader [B "x"] (io.source (tsv_line ["a"; "b"]%string) EOF) 2))
      (snd (NewTSVInputReader [B "x"] (io.source (tsv_line ["a"; "b"]%string) EOF) 2))
    = Some (res, r', st') /\
    TSVInputReader.fields r' = [B "x"; B "a"; B "b"].
Proof.
  destruct (proj1 C10_tsv_header_appends_csv_replaces
                  [B "x"] (io.source (tsv_line ["a"; "b"]%string) EOF) 2
                  (tsv_line ["a"; "b"]%string) [])
    as (res & r' & st' & Hrun & Hf).
  - exists (B "a" ++ [TAB] ++ B "b"). split; [reflexivity|].
    intros Hin. vm_compute in Hin. intuition discriminate.
  - reflexivity.
  - exists res, r', st'. split; [exact Hrun|]. rewrite Hf. reflexivity.
Defined.

(** * Further properties *)

(** ** The tokens of a TSV line *)

Section TokenFacts.

Local Open Scope nat_scope.

Lemma TrimRight_app_terminators (s t cutset : bytes) :
  Forall (fun c => strings.ContainsByte cutset c = true) t ->
  strings.TrimRight (s ++ t) cutset = strings.TrimRight s cutset.
Proof.
  induction t as [|c t IH] using rev_ind; intros Ht.
  - now rewrite app_nil_r.
  - apply Forall_app in Ht. destruct Ht as [Ht Hc].
    inversion Hc; subst.
    rewrite app_assoc, TrimRight_snoc_drop by assumption.
    now apply IH.
Qed.

Lemma TrimRight_idempotent (s cutset : bytes) :
  strings.TrimRight (strings.TrimRight s cutset) cutset = strings.TrimRight s cutset.
Proof.
  induction s as [|c s IH] using rev_ind; [reflexivity|].
  destruct (strings.ContainsByte cutset c) eqn:E.
  - now rewrite TrimRight_snoc_drop.
  - now rewrite !TrimRight_snoc_keep.
Qed.

Lemma TrimRight_crlf_tabs (s : bytes) :
  count_occ ascii_dec (strings.TrimRight s crlf) TAB = count_occ ascii_dec s TAB.
Proof.
  induction s as [|c s IH] using rev_ind; [reflexivity|].
  destruct (strings.ContainsByte crlf c) eqn:E.
  - rewrite TrimRight_snoc_drop, count_occ_app, IH by assumption.
    cbn [count_occ]. destruct (ascii_dec c TAB) as [->|_]; [discriminate E | lia].
  - now rewrite TrimRight_snoc_keep.
Qed.

Lemma split_on_snoc (sep c : ascii) (s : bytes) :
  c <> sep ->
  split_on sep (s ++ [c]) =
  removelast (split_on sep s) ++ [last (split_on sep s) [] ++ [c]].
Proof.
  intros Hc. induction s as [|x s IH].
  - simpl. destruct (Ascii.eqb_spec c sep); [contradiction | reflexivity].
  - cbn [app split_on]. rewrite IH.
    destruct (split_on sep s) as [|t ts] eqn:Es;
      [now apply split_on_nonempty in Es|].
    destruct (Ascii.eqb x sep).
    + reflexivity.
    + destruct ts as [|t' ts]; reflexivity.
Qed.

(** Trimming the line first or every token afterwards comes to the same. *)
Lemma trim_tokens (s : bytes) :
  map (fun f => strings.TrimRight f crlf) (split_on TAB (strings.TrimRight s crlf)) =
  map (fun f => strings.TrimRight f crlf) (split_on TAB s).
Proof.
  induction s as [|c s IH] using rev_ind; [reflexivity|].
  destruct (strings.ContainsByte crlf c) eqn:E.
  - rewrite TrimRight_snoc_drop, IH by assumption.
    assert (Hc : c <> TAB) by (intros ->; discriminate E).
    rewrite (split_on_snoc TAB c s Hc), map_app. cbn [map].
    rewrite TrimRight_snoc_drop by assumption.
    rewrite (app_removelast_last [] (split_on_nonempty TAB s)) at 1.
    now rewrite map_app.
  - now rewrite TrimRight_snoc_keep.
Qed.

Lemma tsvTokens_length (d : bytes) :
  List.length (tsvTokens d) = S (count_occ ascii_dec d TAB).
Proof.
  unfold tsvTokens, tokenSeparator.
  now rewrite Split_single, split_on_length, TrimRight_crlf_tabs.
Qed.

End TokenFacts.


(** X1: conversion of a TSV record gets one token more than the line has
    tab bytes, whatever its line ending: never no token at all, and a line
    without tabs (a blank line too) gives exactly one. *)
Theorem X1_tsv_token_count (d : bytes) :
  List.length (tsvTokens d) = S (count_occ ascii_dec d TAB) /\
  tsvTokens d <> [] /\
  (~ In TAB d -> exists t, tsvTokens d = [t]).
Proof.
  pose proof (tsvTokens_length d) as Hlen.
  split; [exact Hlen|]. split.
  - intros Hnil. rewrite Hnil in Hlen. discriminate.
  - intros Hno. apply (count_occ_not_In ascii_dec) in Hno.
    rewrite Hno in Hlen.
    destruct (tsvTokens d) as [|t [|t' ts]]; try discriminate.
    now exists t.
Qed.

(** X1 at an input: a blank line gives one token. *)
Lemma X1_witness : exists t, tsvTokens [LF] = [t].
Proof.
  apply (proj2 (proj2 (X1_tsv_token_count [LF]))).
  intros Hin. vm_compute in Hin. intuition discriminate.
Defined.

(** X2: the tokens of a TSV line do not depend on how the line ends: any
    run of CR and LF bytes at its end is dropped, so LF and CR LF endings
    give the same tokens.  A line of nothing but such bytes gives one empty
    token; a line whose content does not itself end in CR or LF gives its
    content split at the tabs, byte for byte. *)
Theorem X2_tsv_tokens_ignore_line_ending (s t : bytes) :
  Forall (fun c => is_line_terminator c = true) t ->
  tsvTokens (s ++ t) = tsvTokens s /\
  (s = [] -> tsvTokens (s ++ t) = [[]]) /\
  (forall b c, s = b ++ [c] -> is_line_terminator c = false ->
               tsvTokens (s ++ t) = split_on TAB s).
Proof.
  intros Ht.
  assert (Heq : tsvTokens (s ++ t) = tsvTokens s).
  { unfold tsvTokens. rewrite TrimRight_app_terminators; [reflexivity|].
    eapply Forall_impl; [|exact Ht].
    intros c Hc. now rewrite ContainsByte_crlf. }
  split; [exact Heq|]. split.
  - intros ->. rewrite Heq. reflexivity.
  - intros b c -> Hc. rewrite Heq. unfold tsvTokens, tokenSeparator.
    rewrite TrimRight_snoc_keep by now rewrite ContainsByte_crlf.
    apply Split_single.
Qed.

(** X2 at an input: "a<TAB>b" ended by CR LF gives the tokens a and b. *)
Lemma X2_witness :
  tsvTokens ((B "a" ++ [TAB] ++ B "b") ++ [CR; LF]) = [B "a"; B "b"].
Proof.
  destruct (X2_tsv_tokens_ignore_line_ending (B "a" ++ [TAB] ++ B "b") [CR; LF])
    as (_ & _ & Hexact).
  - repeat constructor.
  - rewrite (Hexact (B "a" ++ [TAB]) "b"%char eq_refl eq_refl). reflexivity.
Defined.

(** X3: the names the TSV reader takes from a header line are the tokens
    conversion would get of the same line, each with its trailing CR and LF
    bytes dropped (inner names too); there is one more of them than the
    line has tabs, so a header and a record with as many tabs give as many
    names as tokens. *)
Theorem X3_tsv_header_names_are_trimmed_tokens
        (fs : list bytes) (src : io.Source) (nd : Z) (header rest : bytes) :
  is_line header ->
  io.pending src = header ++ rest ->
  let '(r, st) := NewTSVInputReader fs src nd in
  exists res r' st' names,
    TSVInputReader.ReadAndValidateHeader r st = Some (res, r', st') /\
    TSVInputReader.fields r' = fs ++ names /\
    names = map (fun f => strings.TrimRight f crlf) (tsvTokens header) /\
    List.length names = List.length (tsvTokens header) /\
    List.length names = S (count_occ ascii_dec header TAB) /\
    Forall (fun n => strings.TrimRight n crlf = n) names.
Proof.
  intros Hline Hsrc.
  destruct (NewTSVInputReader_ok fs src nd) as [Hok Hstream].
  destruct (NewTSVInputReader fs src nd) as [r st] eqn:Enew.
  cbn [fst snd] in Hok, Hstream.
  destruct (TSV_header_spec r st Hok)
    as (res & r' & st' & Hrun & _ & _ & _ & Hres).
  destruct (cut_line header rest Hline) as (i & Hi & Hfirst & _).
  rewrite Hstream, Hsrc, Hi, Hfirst in Hres.
  destruct Hres as (Hf & _ & _).
  unfold NewTSVInputReader in Enew. inversion Enew; subst.
  cbn [TSVInputReader.fields] in Hf.
  exists res, r', st', (tsv_header_names header).
  split; [exact Hrun|]. split; [exact Hf|].
  assert (Hnames : tsv_header_names header =
                   map (fun f => strings.TrimRight f crlf) (tsvTokens header)).
  { unfold tsv_header_names, tsvTokens, tokenSeparator.
    now rewrite !Split_single, trim_tokens. }
  split; [exact Hnames|].
  rewrite Hnames, length_map.
  split; [reflexivity|]. split; [apply tsvTokens_length|].
  apply Forall_forall. intros n Hin.
  apply in_map_iff in Hin. destruct Hin as (f & <- & _).
  apply TrimRight_idempotent.
Qed.

(** X3 at an input: the header "a<CR><TAB>b" ended by CR LF gives the names
    a and b. *)
Lemma X3_witness :
  exists res r' st',
    TSVInputReader.ReadAndValidateHeader
      (fst (NewTSVInputReader
              [] (io.source (B "a" ++ [CR; TAB] ++ B "b" ++ [CR; LF]) EOF) 1))
      (snd (NewTSVInputReader
              [] (io.source (B "a" ++ [CR; TAB] ++ B "b" ++ [CR; LF]) EOF) 1))
    = Some (res, r', st') /\
    TSVInputReader.fields r' = [B "a"; B "b"].
Proof.
  destruct (X3_tsv_header_names_are_trimmed_tokens
              [] (io.source (B "a" ++ [CR; TAB] ++ B "b" ++ [CR; LF]) EOF) 1
              (B "a" ++ [CR; TAB] ++ B "b" ++ [CR; LF]) [])
    as (res & r' & st' & names & Hrun & Hf & Hnames & _).
  - exists (B "a" ++ [CR; TAB] ++ B "b" ++ [CR]). split; [reflexivity|].
    intros Hin. vm_compute in Hin. intuition discriminate.
  - reflexivity.
  - exists res, r', st'. split; [exact Hrun|].
    rewrite Hf, Hnames. reflexivity.
Defined.

(** ** The header and then the records *)

Lemma TSV_header_keeps_final (r : TSVInputReader.t) (st : io.Store)
      (res : option error) (r' : TSVInputReader.t) (st' : io.Store) :
  tsv_ok r ->
  TSVInputReader.ReadAndValidateHeader r st = Some (res, r', st') ->
  io.final (io.in_obj st') = io.final (io.in_obj st).
Proof.
  intros [Herr _] Hrun.
  destruct (ReadString_spec entryDelimiter (TSVInputReader.tsvReader r) st Herr)
    as (line & e & b' & st1 & Hread & [Hfin _] & _).
  unfold TSVInputReader.ReadAndValidateHeader in Hrun. rewrite Hread in Hrun.
  destruct e; inversion Hrun; subst; exact Hfin.
Qed.

Lemma sends_read_error_sent (from : Z) (sent : nat) (e : error) :
  sends (read_error_sent from sent e) = [].
Proof. unfold read_error_sent. now destruct (is_EOF e). Qed.

(** X4: a TSV reader that has read its header streams the lines after it.
    The header line is no record; the records are the following complete
    lines, in order, numbered from 0, each with the field list the header
    left: the constructor's names followed by the header's. *)
Theorem X4_tsv_header_then_records
        (fs : list bytes) (nd : Z) (header : bytes) (lines : list bytes)
        (partial : bytes) (e : error) :
  is_line header ->
  Forall is_line lines ->
  ~ In LF partial ->
  let '(r, st) :=
    NewTSVInputReader
      fs (io.source (header ++ List.concat lines ++ partial) e) nd in
  exists res r1 st1 acts p' st',
    TSVInputReader.ReadAndValidateHeader r st = Some (res, r1, st1) /\
    run (2 * List.length lines + 3) (start r1) st1 = (acts, p', st') /\
    at_ p' = Returned /\
    err p' = Some e /\
    sends acts =
    tsv_records
      (fs ++ map (fun f => strings.TrimRight f crlf)
                 (strings.Split header tokenSeparator))
      0 lines /\
    (is_EOF e = true -> errors acts = []).
Proof.
  intros Hheader Hlines Hpartial.
  set (src := io.source (header ++ List.concat lines ++ partial) e).
  destruct (NewTSVInputReader_ok fs src nd) as [Hok Hstream].
  destruct (NewTSVInputReader fs src nd) as [r st] eqn:Enew.
  cbn [fst snd] in Hok, Hstream.
  destruct (TSV_header_spec r st Hok)
    as (res & r1 & st1 & Hrun & Hok1 & Hn1 & _ & Hres).
  pose proof (TSV_header_keeps_final r st res r1 st1 Hok Hrun) as Hfin1.
  destruct (cut_line header (List.concat lines ++ partial) Hheader)
    as (i & Hi & Hfirst & Hskip).
  unfold src in Hstream. cbn [io.pending io.source] in Hstream.
  rewrite Hstream, Hi, Hfirst, Hskip in Hres.
  destruct Hres as (Hf & _ & Hstream1).
  unfold NewTSVInputReader in Enew. inversion Enew; subst r st. clear Enew.
  cbn [TSVInputReader.fields TSVInputReader.numProcessed
       io.final io.in_obj io.source] in Hf, Hn1, Hfin1.
  change (uint64 0) with 0 in Hn1.
  destruct (tsv_run_lines lines r1 st1 partial Hok1 Hstream1 Hlines)
    as (r2 & st2 & Hrun2 & Hok2 & Hstream2 & _ & _ & Hfin2).
  assert (Hnone : strings.IndexByte (tsv_stream r2 st2) entryDelimiter = None)
    by (rewrite Hstream2; now apply IndexByte_None).
  destruct (tsv_run_end r2 st2 Hok2 Hnone)
    as (r3 & st3 & Hrun3 & _).
  rewrite Hfin2, Hfin1 in Hrun3. rewrite Hf, Hn1 in Hrun2.
  unfold tsv_header_names in Hrun2.
  do 6 eexists. split; [exact Hrun|].
  split; [now rewrite run_app, Hrun2, Hrun3|].
  split; [reflexivity|]. split; [reflexivity|].
  split.
  - rewrite sends_app, sends_sending. cbn [sends].
    now rewrite sends_app, sends_read_error_sent, app_nil_r.
  - intros Heof. rewrite errors_app, errors_sending. cbn [errors app].
    change (io.final src) with e.
    unfold read_error_sent. now rewrite Heof.
Qed.

(** X4 at an input: the header a, b and the line 1, 2 give one record, with
    the fields a and b and the index 0. *)
Lemma X4_witness :
  exists res r1 st1 acts p' st',
    TSVInputReader.ReadAndValidateHeader
      (fst (NewTSVInputReader
              [] (io.source (tsv_line ["a"; "b"]%string ++ tsv_line ["1"; "2"]%string) EOF) 1))
      (snd (NewTSVInputReader
              [] (io.source (tsv_line ["a"; "b"]%string ++ tsv_line ["1"; "2"]%string) EOF) 1))
    = Some (res, r1, st1) /\
    run 5 (start r1) st1 = (acts, p', st') /\
    sends acts = [TSVConvertibleDoc [B "a"; B "b"] (tsv_line ["1"; "2"]%string) 0].
Proof.
  destruct (X4_tsv_header_then_records
              [] 1 (tsv_line ["a"; "b"]%string) [tsv_line ["1"; "2"]%string] [] EOF)
    as (res & r1 & st1 & acts & p' & st' & Hhdr & Hrun & _ & _ & Hsends & _).
  - exists (B "a" ++ [TAB] ++ B "b"). split; [reflexivity|].
    intros Hin. vm_compute in Hin. intuition discriminate.
  - constructor; [|constructor].
    exists (B "1" ++ [TAB] ++ B "2"). split; [reflexivity|].
    intros Hin. vm_compute in Hin. intuition discriminate.
  - intros [].
  - exists res, r1, st1, acts, p', st'.
    split; [exact Hhdr|]. split; [exact Hrun|]. exact Hsends.
Defined.

(** ** What the loop keeps *)

Section KeptByTheLoop.

Context {R : Type} `{InputReader R}.

Variable P : R -> Prop.

Hypothesis read_keeps :
  forall r st e r' st', read_entry r st = Some (e, r', st') -> P r -> P r'.

Hypothesis incr_keeps : forall r, P r -> P (incr_numProcessed r).

Lemma step_keeps (p : Producer R) (st : io.Store)
      (a : Action) (p' : Producer R) (st' : io.Store) :
  producer_step p st = Some (a, p', st') ->
  P (reader p) ->
  P (reader p') /\
  (forall d, a = Send d -> exists r', P r' /\ d = entry_doc r').
Proof.
  unfold producer_step. intros Hstep HP.
  destruct (at_ p).
  - destruct (read_entry (reader p) st) as [[[[e|] r'] st0]|] eqn:Eread;
      [| |discriminate].
    + pose proof (read_keeps _ _ _ _ _ Eread HP) as HP'.
      destruct (is_EOF e); inversion Hstep; subst; cbn [reader];
        (split; [auto | discriminate]).
    + pose proof (read_keeps _ _ _ _ _ Eread HP) as HP'.
      inversion Hstep; subst. split; [exact HP' | discriminate].
  - destruct (err p); [|discriminate].
    inversion Hstep; subst. split; [exact HP | discriminate].
  - inversion Hstep; subst. split; [exact HP | discriminate].
  - inversion Hstep; subst. split; [now apply incr_keeps|].
    intros d Hd. inversion Hd; subst. now exists (reader p).
  - discriminate.
Qed.

Lemma run_keeps (n : nat) :
  forall (p : Producer R) (st : io.Store),
    P (reader p) ->
    P (reader (snd (fst (run n p st)))) /\
    Forall (fun d => exists r', P r' /\ d = entry_doc r')
           (sends (fst (fst (run n p st)))).
Proof.
  induction n as [|n IH]; intros p st HP.
  - split; [exact HP | constructor].
  - cbn [run].
    destruct (producer_step p st) as [[[a p'] st']|] eqn:Estep.
    + destruct (step_keeps p st a p' st' Estep HP) as [HP' Hsend].
      destruct (IH p' st' HP') as [Hend Hall].
      destruct (run n p' st') as [[acts p''] st''].
      cbn [fst snd] in *. split; [exact Hend|].
      destruct a; cbn [sends]; try exact Hall.
      constructor; [now apply Hsend | exact Hall].
    + split; [exact HP | constructor].
Qed.

End KeptByTheLoop.

Section CounterFacts.

Context {R : Type} `{InputReaderLaws R}.

Lemma counter_ok_step (from : Z) (acts : list Action) (p : Producer R) (st : io.Store)
      (a : Action) (p' : Producer R) (st' : io.Store) :
  counter_ok from acts p ->
  producer_step p st = Some (a, p', st') ->
  counter_ok from (acts ++ [a]) p'.
Proof.
  unfold counter_ok, producer_step. intros Hpc Hstep.
  destruct (at_ p) eqn:Eat.
  - destruct (read_entry (reader p) st) as [[[[e|] r'] st0]|] eqn:Eread;
      [| |discriminate];
      pose proof (read_entry_numProcessed _ _ _ _ _ Eread) as Hsame.
    + destruct (is_EOF e) eqn:Eeof; inversion Hstep; subst; clear Hstep;
        cbn [at_ err reader]; rewrite sends_app; cbn [sends]; rewrite app_nil_r;
        exists e.
      * split; [reflexivity|]. rewrite Eeof, Z.add_0_r. congruence.
      * split; [reflexivity|]. split; [exact Eeof|].
        now rewrite incr_numProcessed_spec, Hsame, Hpc, uint64_add_l.
    + inversion Hstep; subst; clear Hstep.
      cbn [at_ err reader]. rewrite sends_app. cbn [sends]. rewrite app_nil_r.
      congruence.
  - destruct Hpc as (e & He & Heof & Hnum).
    rewrite He in Hstep. inversion Hstep; subst; clear Hstep.
    cbn [at_ err reader]. rewrite sends_app. cbn [sends]. rewrite app_nil_r.
    exists e. split; [reflexivity|]. now rewrite Heof.
  - destruct Hpc as (e & He & Hnum).
    inversion Hstep; subst; clear Hstep.
    cbn [at_ err reader]. rewrite sends_app. cbn [sends]. rewrite app_nil_r.
    exists e. now split.
  - inversion Hstep; subst; clear Hstep.
    cbn [at_ err reader]. rewrite sends_app, length_app. cbn [sends List.length].
    rewrite incr_numProcessed_spec, Hpc, uint64_add_l. f_equal. lia.
  - discriminate.
Qed.

Lemma run_counter_ok (n : nat) :
  forall (r : R) (st : io.Store) acts p st',
    numProcessed r = uint64 (numProcessed r) ->
    run n (start r) st = (acts, p, st') ->
    counter_ok (numProcessed r) acts p.
Proof.
  induction n as [|n IH]; intros r st acts p st' Hrange Hrun.
  - simpl in Hrun. inversion Hrun; subst.
    unfold counter_ok. cbn. now rewrite Z.add_0_r.
  - rewrite run_S in Hrun.
    destruct (run n (start r) st) as [[acts1 p1] st1] eqn:E1.
    specialize (IH _ _ _ _ _ Hrange E1).
    destruct (producer_step p1 st1) as [[[a p2] st2]|] eqn:E2.
    + inversion Hrun; subst. eapply counter_ok_step; eassumption.
    + inversion Hrun; subst. exact IH.
Qed.

Lemma counter_at_return (r : R) (st : io.Store) (n : nat)
      (acts : list Action) (p' : Producer R) (st' : io.Store) :
  numProcessed r = 0 ->
  run n (start r) st = (acts, p', st') ->
  (at_ p' = AtRead ->
   numProcessed (reader p') = uint64 (Z.of_nat (List.length (sends acts)))) /\
  (at_ p' = Returned ->
   exists e,
     err p' = Some e /\
     numProcessed (reader p') =
     uint64 (Z.of_nat (List.length (sends acts)) + (if is_EOF e then 0 else 1))).
Proof.
  intros Hzero Hrun.
  assert (Hrange : numProcessed r = uint64 (numProcessed r)) by now rewrite Hzero.
  pose proof (run_counter_ok n r st acts p' st' Hrange Hrun) as Hc.
  unfold counter_ok in Hc. rewrite Hzero in Hc. cbn [Z.add] in Hc.
  split; intros Hat; rewrite Hat in Hc; exact Hc.
Qed.

End CounterFacts.

(** X5: streaming never touches the field list.  Whatever a reader has
    read and however far its goroutine has run, the reader still holds the
    field list it started with, and every record sent carries that list;
    the TSV reader sends TSV records only, the CSV reader CSV records
    only. *)
Theorem X5_streaming_keeps_the_field_list :
  (forall (r : TSVInputReader.t) (st : io.Store) (n : nat),
      TSVInputReader.fields (reader (snd (fst (run n (start r) st))))
      = TSVInputReader.fields r /\
      Forall (fun d => exists data i,
                  d = TSVConvertibleDoc (TSVInputReader.fields r) data i)
             (sends (fst (fst (run n (start r) st)))))
  /\
  (forall (C : Collaborators) (r : CSVInputReader.t) (st : io.Store) (n : nat),
      CSVInputReader.fields (reader (snd (fst (run n (start r) st))))
      = CSVInputReader.fields r /\
      Forall (fun d => exists data i,
                  d = CSVConvertibleDoc (CSVInputReader.fields r) data i)
             (sends (fst (fst (run n (start r) st))))).
Proof.
  split.
  - intros r st n.
    destruct (run_keeps (fun r' => TSVInputReader.fields r' = TSVInputReader.fields r))
      with (n := n) (p := start r) (st := st) as [Hend Hall].
    + intros r0 st0 e r' st'. cbn [read_entry TSV_InputReader].
      unfold TSVInputReader.read_entry.
      destruct (bufio.ReadString _ _ _) as [[[[line e0] rd'] st1]|]; [|discriminate].
      intros Heq. inversion Heq; subst. exact (fun Hf => Hf).
    + intros r0 Hf. exact Hf.
    + reflexivity.
    + split; [exact Hend|].
      eapply Forall_impl; [|exact Hall].
      intros d (r' & Hf & ->). cbn [entry_doc TSV_InputReader].
      unfold TSVInputReader.entry_doc. rewrite Hf. eauto.
  - intros C r st n.
    destruct (run_keeps (fun r' => CSVInputReader.fields r' = CSVInputReader.fields r))
      with (n := n) (p := start r) (st := st) as [Hend Hall].
    + intros r0 st0 e r' st'. cbn [read_entry CSV_InputReader].
      unfold CSVInputReader.read_entry.
      destruct (csv_Read _ _) as [[[[record e0] rd'] st1]|]; [|discriminate].
      intros Heq. inversion Heq; subst. exact (fun Hf => Hf).
    + intros r0 Hf. exact Hf.
    + reflexivity.
    + split; [exact Hend|].
      eapply Forall_impl; [|exact Hall].
      intros d (r' & Hf & ->). cbn [entry_doc CSV_InputReader].
      unfold CSVInputReader.entry_doc. rewrite Hf. eauto.
Qed.

(** X6: the record counter counts the records sent, and the entry whose
    read failed.  From a counter at 0: whenever the goroutine is back at
    its read the counter is the number of records sent so far; when it has
    returned the counter is that number if the input ended, and one more if
    the loop ended on any other read error. *)
Theorem X6_counter_counts_records_and_the_failed_read :
  (forall (r : TSVInputReader.t) (st : io.Store) (n : nat)
          (acts : list Action) (p' : Producer TSVInputReader.t) (st' : io.Store),
      TSVInputReader.numProcessed r = 0 ->
      run n (start r) st = (acts, p', st') ->
      (at_ p' = AtRead ->
       TSVInputReader.numProcessed (reader p')
       = uint64 (Z.of_nat (List.length (sends acts)))) /\
      (at_ p' = Returned ->
       exists e,
         err p' = Some e /\
         TSVInputReader.numProcessed (reader p')
         = uint64 (Z.of_nat (List.length (sends acts))
                   + (if is_EOF e then 0 else 1))))
  /\
  (forall (C : Collaborators)
          (r : CSVInputReader.t) (st : io.Store) (n : nat)
          (acts : list Action) (p' : Producer CSVInputReader.t) (st' : io.Store),
      CSVInputReader.numProcessed r = 0 ->
      run n (start r) st = (acts, p', st') ->
      (at_ p' = AtRead ->
       CSVInputReader.numProcessed (reader p')
       = uint64 (Z.of_nat (List.length (sends acts)))) /\
      (at_ p' = Returned ->
       exists e,
         err p' = Some e /\
         CSVInputReader.numProcessed (reader p')
         = uint64 (Z.of_nat (List.length (sends acts))
                   + (if is_EOF e then 0 else 1)))).
Proof.
  split.
  - intros r st n acts p' st' Hzero Hrun.
    exact (counter_at_return r st n acts p' st' Hzero Hrun).
  - intros C r st n acts p' st' Hzero Hrun.
    exact (counter_at_return r st n acts p' st' Hzero Hrun).
Qed.

(** X6 at an input: one line and then a failing source; one record was
    sent and the counter stands at 2. *)
Lemma X6_witness :
  exists acts p' st',
    run 5 (start (fst (NewTSVInputReader
                         [] (io.source (tsv_line ["x"]%string) (Failure "disk")) 1)))
        (snd (NewTSVInputReader
                [] (io.source (tsv_line ["x"]%string) (Failure "disk")) 1))
    = (acts, p', st') /\
    List.length (sends acts) = 1%nat /\
    TSVInputReader.numProcessed (reader p') = 2.
Proof.
  pose (rs := NewTSVInputReader [] (io.source (tsv_line ["x"]%string) (Failure "disk")) 1).
  assert (Erun : exists acts p' st',
             run 5 (start (fst rs)) (snd rs) = (acts, p', st') /\
             at_ p' = Returned /\ err p' = Some (Failure "disk") /\
             List.length (sends acts) = 1%nat).
  { do 3 eexists. split; [vm_compute; reflexivity|]. now repeat split. }
  destruct Erun as (acts & p' & st' & Erun & Hat & Herr & Hlen).
  destruct (proj1 X6_counter_counts_records_and_the_failed_read
                  (fst rs) (snd rs) 5%nat acts p' st' eq_refl Erun) as [_ Hret].
  destruct (Hret Hat) as (e & He & Hnum).
  exists acts, p', st'. split; [exact Erun|]. split; [exact Hlen|].
  rewrite Herr in He. inversion He; subst e.
  rewrite Hnum, Hlen. reflexivity.
Defined.

(** ** The record channel *)

Section ChannelFacts.

Context {R : Type} `{InputReader R}.

Lemma queue_bound_step (m : move) (s s' : System R) :
  (List.length (queue s) <= capacity s)%nat ->
  sys_step m s = Some s' ->
  (List.length (queue s') <= capacity s')%nat /\ capacity s' = capacity s.
Proof.
  intros Hcap Hstep. destruct m; cbn [sys_step] in Hstep.
  - unfold producer_move in Hstep.
    destruct (producer_step (producer s) (store s)) as [[[a p'] st']|];
      [|discriminate].
    destruct a.
    + inversion Hstep; subst. now split.
    + destruct (List.length (queue s) <? capacity s)%nat eqn:Eroom.
      * apply Nat.ltb_lt in Eroom. inversion Hstep; subst.
        cbn [queue capacity]. rewrite length_app. simpl. split; [lia | reflexivity].
      * destruct (capacity s); [|discriminate].
        destruct (main s); try discriminate.
        inversion Hstep; subst. now split.
    + inversion Hstep; subst. now split.
    + inversion Hstep; subst. now split.
  - destruct (main s); try discriminate.
    destruct (queue s) as [|d q] eqn:Eq; [discriminate|].
    inversion Hstep; subst. cbn [queue capacity]. simpl in Hcap.
    split; [lia | reflexivity].
  - destruct (main s); try discriminate. inversion Hstep; subst. now split.
  - destruct (main s); try discriminate. inversion Hstep; subst. now split.
  - destruct (main s); try discriminate. inversion Hstep; subst. now split.
Qed.

Lemma queue_bound_exec (sched : list move) :
  forall s s' : System R,
    (List.length (queue s) <= capacity s)%nat ->
    exec sched s = Some s' ->
    (List.length (queue s') <= capacity s')%nat /\ capacity s' = capacity s.
Proof.
  induction sched as [|m sched IH]; intros s s' Hcap Hexec; simpl in Hexec.
  - inversion Hexec; subst. now split.
  - destruct (sys_step m s) as [s1|] eqn:Estep; [|discriminate].
    destruct (queue_bound_step m s s1 Hcap Estep) as [Hcap1 Heq1].
    destruct (IH s1 s' Hcap1 Hexec) as [Hcap' Heq'].
    split; [exact Hcap' | congruence].
Qed.

Lemma closed_ok_step (m : move) (s s' : System R) :
  closed_ok s -> sys_step m s = Some s' -> closed_ok s'.
Proof.
  unfold closed_ok. intros Hinv Hstep.
  destruct m; cbn [sys_step] in Hstep.
  - unfold producer_move, producer_step in Hstep.
    assert (Hopen : at_ (producer s) <> Returned -> closed s = false).
    { intros Hne. destruct (closed s); [|reflexivity].
      exfalso. apply Hne. now apply Hinv. }
    destruct (at_ (producer s)) eqn:Eat.
    + destruct (read_entry (reader (producer s)) (store s))
        as [[[[e|] r'] st0]|]; [| |discriminate].
      * destruct (is_EOF e); inversion Hstep; subst; cbn [closed producer at_];
          rewrite Hopen by discriminate; split; discriminate.
      * inversion Hstep; subst. cbn [closed producer at_].
        rewrite Hopen by discriminate. split; discriminate.
    + destruct (err (producer s)); [|discriminate].
      inversion Hstep; subst. cbn [closed producer at_].
      rewrite Hopen by discriminate. split; discriminate.
    + inversion Hstep; subst. cbn [closed producer at_]. now split.
    + destruct (List.length (queue s) <? capacity s)%nat.
      * inversion Hstep; subst. cbn [closed producer at_].
        rewrite Hopen by discriminate. split; discriminate.
      * destruct (capacity s); [|discriminate].
        destruct (main s); try discriminate.
        inversion Hstep; subst. cbn [closed producer at_].
        rewrite Hopen by discriminate. split; discriminate.
    + discriminate.
  - destruct (main s); try discriminate.
    destruct (queue s); [discriminate|]. inversion Hstep; subst. exact Hinv.
  - destruct (main s); try discriminate. inversion Hstep; subst. exact Hinv.
  - destruct (main s); try discriminate. inversion Hstep; subst. exact Hinv.
  - destruct (main s); try discriminate. inversion Hstep; subst. exact Hinv.
Qed.

Lemma closed_ok_exec (sched : list move) :
  forall s s' : System R, closed_ok s -> exec sched s = Some s' -> closed_ok s'.
Proof.
  induction sched as [|m sched IH]; intros s s' Hinv Hexec; simpl in Hexec.
  - now inversion Hexec; subst.
  - destruct (sys_step m s) as [s1|] eqn:Estep; [|discriminate].
    eapply IH; [|exact Hexec]. eapply closed_ok_step; eassumption.
Qed.

End ChannelFacts.

(** X7: the record channel never holds more than [numDecoders] records.
    In every state a call of [StreamDocument] can reach, whatever the order
    in which the goroutine and the engine move, the buffer of the record
    channel has at most [numDecoders] records in it; with [numDecoders = 0]
    it is always empty.  This holds of any input reader, so of the CSV and
    of the TSV reader. *)
Theorem X7_record_channel_is_bounded
        (R : Type) (I : InputReader R)
        (r : R) (st : io.Store) (o : bool)
        (s0 : System R) (sched : list move) (s : System R) :
  StreamDocument r st o = Some s0 ->
  exec sched s0 = Some s ->
  0 <= numDecoders r /\
  capacity s = Z.to_nat (numDecoders r) /\
  (List.length (queue s) <= Z.to_nat (numDecoders r))%nat /\
  (numDecoders r = 0 -> queue s = []).
Proof.
  unfold StreamDocument. intros Hstart Hexec.
  destruct (numDecoders r <? 0) eqn:Eneg; [discriminate|].
  apply Z.ltb_ge in Eneg. inversion Hstart; subst s0. clear Hstart.
  pose proof (fun Hb => queue_bound_exec sched _ s Hb Hexec) as Hbound.
  cbn [queue capacity List.length] in Hbound.
  destruct (Hbound (Nat.le_0_l _)) as [Hcap Heq].
  rewrite Heq in Hcap.
  split; [exact Eneg|]. split; [exact Heq|]. split; [exact Hcap|].
  intros Hzero. rewrite Hzero in Hcap. simpl in Hcap.
  destruct (queue s); [reflexivity | simpl in Hcap; lia].
Qed.

(** X7 at an input: with room for one record the second send has to wait;
    after the first send the buffer holds one record. *)
Lemma X7_witness :
  exists s0 s,
    StreamDocument
      (fst (NewTSVInputReader
              [] (io.source (tsv_line ["x"]%string ++ tsv_line ["y"]%string) EOF) 1))
      (snd (NewTSVInputReader
              [] (io.source (tsv_line ["x"]%string ++ tsv_line ["y"]%string) EOF) 1))
      true
    = Some s0 /\
    exec [RunProducer; RunProducer; RunProducer] s0 = Some s /\
    sys_step RunProducer s = None /\
    (List.length (queue s) <= 1)%nat.
Proof.
  pose (rs := NewTSVInputReader
                [] (io.source (tsv_line ["x"]%string ++ tsv_line ["y"]%string) EOF) 1).
  assert (Estart : exists s0, StreamDocument (fst rs) (snd rs) true = Some s0)
    by (eexists; reflexivity).
  destruct Estart as [s0 Estart].
  assert (Eexec : exists s, exec [RunProducer; RunProducer; RunProducer] s0 = Some s
                            /\ sys_step RunProducer s = None).
  { inversion Estart; subst. eexists.
    split; [vm_compute; reflexivity | vm_compute; reflexivity]. }
  destruct Eexec as (s & Eexec & Hblocked).
  destruct (X7_record_channel_is_bounded
              TSVInputReader.t TSV_InputReader (fst rs) (snd rs) true s0
              [RunProducer; RunProducer; RunProducer] s Estart Eexec)
    as (_ & _ & Hbound & _).
  exists s0, s. split; [exact Estart|]. split; [exact Eexec|].
  split; [exact Hblocked | exact Hbound].
Defined.

(** X9: the record channel is closed by the goroutine's last step, and
    nothing is sent on it afterwards.  In every state a call of
    [StreamDocument] can reach, the channel is closed exactly when the
    goroutine has returned; from such a state on, whatever moves, no
    further record is accepted by the channel. *)
Theorem X9_nothing_is_sent_on_the_closed_channel
        (R : Type) (I : InputReader R)
        (r : R) (st : io.Store) (o : bool)
        (s0 : System R) (sched : list move) (s : System R) :
  StreamDocument r st o = Some s0 ->
  exec sched s0 = Some s ->
  (closed s = true <-> at_ (producer s) = Returned) /\
  (closed s = true ->
   forall (sched' : list move) (s' : System R),
     exec sched' s = Some s' -> accepted s' = accepted s).
Proof.
  unfold StreamDocument. intros Hstart Hexec.
  destruct (numDecoders r <? 0); [discriminate|].
  inversion Hstart; subst s0. clear Hstart.
  assert (Hinv : closed_ok s).
  { eapply closed_ok_exec; [|exact Hexec].
    unfold closed_ok. cbn. split; discriminate. }
  split; [exact Hinv|].
  intros Hclosed sched' s' Hexec'.
  apply Hinv in Hclosed.
  eapply no_admission_after_read_error; [|exact Hexec'].
  now rewrite Hclosed.
Qed.

(** X9 at an input: an empty source; the goroutine closes the channel at
    its second step and has returned. *)
Lemma X9_witness :
  exists s0 s,
    StreamDocument
      (fst (NewTSVInputReader [] (io.source [] EOF) 1))
      (snd (NewTSVInputReader [] (io.source [] EOF) 1)) true = Some s0 /\
    exec [RunProducer; RunProducer] s0 = Some s /\
    closed s = true /\
    at_ (producer s) = Returned.
Proof.
  pose (rs := NewTSVInputReader [] (io.source [] EOF) 1).
  assert (Estart : exists s0, StreamDocument (fst rs) (snd rs) true = Some s0)
    by (eexists; reflexivity).
  destruct Estart as [s0 Estart].
  assert (Eexec : exists s, exec [RunProducer; RunProducer] s0 = Some s
                            /\ closed s = true).
  { inversion Estart; subst. eexists.
    split; [vm_compute; reflexivity | vm_compute; reflexivity]. }
  destruct Eexec as (s & Eexec & Hclosed).
  destruct (X9_nothing_is_sent_on_the_closed_channel
              TSVInputReader.t TSV_InputReader (fst rs) (snd rs) true s0
              [RunProducer; RunProducer] s Estart Eexec) as [Hiff _].
  exists s0, s. split; [exact Estart|]. split; [exact Eexec|].
  split; [exact Hclosed | now apply Hiff].
Defined.

(** X8: records enter the record channel in input order, none twice and
    none left out.  For a TSV reader over complete lines (and a rest
    without line end), in every state a call of [StreamDocument] can reach,
    whatever the order in which the goroutine and the engine move, the
    records the channel has accepted so far are the records of the first k
    lines, in order, for some k. *)
Theorem X8_tsv_records_enter_the_channel_in_input_order
        (fs : list bytes) (nd : Z) (lines : list bytes) (partial : bytes)
        (e : error) (o : bool)
        (s0 : System TSVInputReader.t) (sched : list move)
        (s : System TSVInputReader.t) :
  Forall is_line lines ->
  ~ In LF partial ->
  let '(r, st) :=
    NewTSVInputReader fs (io.source (List.concat lines ++ partial) e) nd in
  StreamDocument r st o = Some s0 ->
  exec sched s0 = Some s ->
  exists k,
    (k <= List.length lines)%nat /\
    accepted s = firstn k (tsv_records fs 0 lines).
Proof.
  intros Hlines Hpartial.
  destruct (tsv_run_all fs nd lines partial e Hlines Hpartial)
    as (np & r' & st' & Hfull & _).
  destruct (NewTSVInputReader fs _ nd) as [r st].
  cbn [fst snd] in Hfull.
  intros Hstart Hexec.
  destruct (sys_ok_exec r st sched s0 s (sys_ok_start r st o s0 Hstart) Hexec)
    as (n & acts & Hrun & Hadm & _).
  destruct (sends_run_prefix n (2 * List.length lines + 3) (start r) st)
    as [rest Hprefix].
  { now rewrite Hfull. }
  rewrite Hfull, Hrun in Hprefix. cbn [fst] in Hprefix.
  rewrite sends_app, sends_sending in Hprefix. cbn [sends] in Hprefix.
  rewrite sends_app, sends_read_error_sent in Hprefix.
  cbn [sends app] in Hprefix. rewrite app_nil_r, <- Hadm in Hprefix.
  exists (List.length (accepted s)). split.
  - rewrite <- (tsv_records_length fs lines 0), Hprefix, length_app. lia.
  - rewrite Hprefix, firstn_app, firstn_all, Nat.sub_diag, firstn_O.
    now rewrite app_nil_r.
Qed.

(** X8 at an input: two lines; after the goroutine has sent one record and
    read the next, the channel has accepted the first. *)
Lemma X8_witness :
  exists s0 s k,
    StreamDocument
      (fst (NewTSVInputReader
              [] (io.source (tsv_line ["x"]%string ++ tsv_line ["y"]%string) EOF) 1))
      (snd (NewTSVInputReader
              [] (io.source (tsv_line ["x"]%string ++ tsv_line ["y"]%string) EOF) 1))
      true
    = Some s0 /\
    exec [RunProducer; RunProducer; EngineReceive; RunProducer] s0 = Some s /\
    (k <= 2)%nat /\
    accepted s =
    firstn k [TSVConvertibleDoc [] (tsv_line ["x"]%string) 0;
              TSVConvertibleDoc [] (tsv_line ["y"]%string) 1].
Proof.
  pose (rs := NewTSVInputReader
                [] (io.source (tsv_line ["x"]%string ++ tsv_line ["y"]%string) EOF) 1).
  assert (Estart : exists s0, StreamDocument (fst rs) (snd rs) true = Some s0)
    by (eexists; reflexivity).
  destruct Estart as [s0 Estart].
  assert (Eexec : exists s,
             exec [RunProducer; RunProducer; EngineReceive; RunProducer] s0 = Some s).
  { inversion Estart; subst. eexists. vm_compute. reflexivity. }
  destruct Eexec as [s Eexec].
  destruct (X8_tsv_records_enter_the_channel_in_input_order
              [] 1 [tsv_line ["x"]%string; tsv_line ["y"]%string] [] EOF true s0
              [RunProducer; RunProducer; EngineReceive; RunProducer] s)
    as (k & Hk & Hadm).
  - constructor; [|constructor; [|constructor]].
    + exists (B "x"). split; [reflexivity|].
      intros Hin. vm_compute in Hin. intuition discriminate.
    + exists (B "y"). split; [reflexivity|].
      intros Hin. vm_compute in Hin. intuition discriminate.
  - intros [].
  - exact Estart.
  - exact Eexec.
  - exists s0, s, k. split; [exact Estart|]. split; [exact Eexec|].
    split; [exact Hk | exact Hadm].
Defined.

(** ** Every input *)

Section AnyInput.

Local Open Scope nat_scope.

(** Every byte string is complete lines followed by a rest without LF. *)
Lemma lines_of_any_input (input : bytes) :
  exists (lines : list bytes) (partial : bytes),
    input = List.concat lines ++ partial /\
    Forall is_line lines /\
    ~ In LF partial /\
    List.length lines = count_occ ascii_dec input LF.
Proof.
  induction input as [|x input IH].
  - exists [], []. split; [reflexivity|]. split; [constructor|].
    split; [tauto | reflexivity].
  - destruct IH as (lines & partial & Heq & Hlines & Hpartial & Hcount).
    cbn [count_occ]. destruct (ascii_dec x LF) as [->|Hx].
    + exists ([LF] :: lines), partial. subst input.
      split; [reflexivity|]. split; [|split; [assumption|]].
      * constructor; [|assumption]. exists []. split; [reflexivity | tauto].
      * cbn [List.length]. now rewrite Hcount.
    + destruct lines as [|l lines].
      * exists [], (x :: partial). subst input.
        split; [reflexivity|]. split; [constructor|]. split; [|exact Hcount].
        intros [Hin|Hin]; [congruence | contradiction].
      * inversion Hlines as [|? ? Hl Hrest]; subst.
        destruct Hl as (body & -> & Hbody).
        exists ((x :: body ++ [LF]) :: lines), partial.
        split; [reflexivity|]. split; [|split; [assumption | exact Hcount]].
        constructor; [|assumption].
        exists (x :: body). split; [reflexivity|].
        intros [Hin|Hin]; [congruence | contradiction].
Qed.

End AnyInput.

(** With an engine that keeps receiving, every send of the goroutine goes
    through: by moves of the goroutine and receives of the engine alone
    the system follows the goroutine's own steps, with the record channel
    empty again after each record. *)
Lemma engine_keeps_up {R : Type} `{InputReader R} (n : nat) :
  forall (s : System R) (acts : list Action) (p' : Producer R) (st' : io.Store),
    main s = Streaming ->
    queue s = [] ->
    run n (producer s) (store s) = (acts, p', st') ->
    exists (sched : list move) (s' : System R),
      exec sched s = Some s' /\
      Forall (fun m => m = RunProducer \/ m = EngineReceive) sched /\
      producer s' = p' /\
      store s' = st' /\
      main s' = Streaming /\
      queue s' = [] /\
      received s' = received s ++ sends acts /\
      errChan s' = errChan s ++ map Some (errors acts).
Proof.
  induction n as [|n IH]; intros s acts p' st' Hmain Hq Hrun; cbn [run] in Hrun.
  - inversion Hrun; subst. exists [], s. cbn [exec sends errors map].
    rewrite !app_nil_r. now repeat split.
  - destruct (producer_step (producer s) (store s)) as [[[a p1] st1]|] eqn:Estep.
    2:{ inversion Hrun; subst. exists [], s. cbn [exec sends errors map].
        rewrite !app_nil_r. now repeat split. }
    destruct (run n p1 st1) as [[acts1 p2] st2] eqn:Erun.
    inversion Hrun; subst acts p' st'. clear Hrun.
    destruct a as [|d|e0|].
    + destruct (IH {| producer := p1; store := st1; ordered := ordered s;
                      capacity := capacity s; queue := queue s;
                      closed := closed s; received := received s;
                      main := main s; errChan := errChan s;
                      terminalError := terminalError s |}
                   acts1 p2 st2 Hmain Hq Erun)
        as (sched & s' & Hexec & Hsched & Hp & Hst & Hm & Hqu & Hrec & Herr).
      exists (RunProducer :: sched), s'.
      split; [cbn [exec sys_step]; unfold producer_move; now rewrite Estep|].
      split; [constructor; [now left | exact Hsched]|].
      now repeat split.
    + destruct (capacity s) as [|c] eqn:Ecap.
      * destruct (IH {| producer := p1; store := st1; ordered := ordered s;
                        capacity := capacity s; queue := queue s;
                        closed := closed s; received := received s ++ [d];
                        main := main s; errChan := errChan s;
                        terminalError := terminalError s |}
                     acts1 p2 st2 Hmain Hq Erun)
          as (sched & s' & Hexec & Hsched & Hp & Hst & Hm & Hqu & Hrec & Herr).
        exists (RunProducer :: sched), s'.
        split.
        { cbn [exec sys_step]. unfold producer_move. rewrite Estep.
          rewrite Ecap, Hq, Hmain. cbn [List.length Nat.ltb Nat.leb].
          rewrite Ecap, Hq, Hmain in Hexec. exact Hexec. }
        split; [constructor; [now left | exact Hsched]|].
        cbn [received errChan] in Hrec, Herr.
        rewrite <- app_assoc in Hrec. now repeat split.
      * destruct (IH {| producer := p1; store := st1; ordered := ordered s;
                        capacity := capacity s; queue := [];
                        closed := closed s; received := received s ++ [d];
                        main := main s; errChan := errChan s;
                        terminalError := terminalError s |}
                     acts1 p2 st2 Hmain eq_refl Erun)
          as (sched & s' & Hexec & Hsched & Hp & Hst & Hm & Hqu & Hrec & Herr).
        exists (RunProducer :: EngineReceive :: sched), s'.
        split.
        { cbn [exec sys_step]. unfold producer_move. rewrite Estep.
          rewrite Ecap, Hq. cbn [List.length Nat.ltb Nat.leb app].
          cbn [exec sys_step main queue]. rewrite Hmain.
          cbn [producer store ordered capacity closed received errChan
               terminalError].
          rewrite Ecap, Hmain in Hexec. exact Hexec. }
        split; [constructor; [now left | constructor; [now right | exact Hsched]]|].
        cbn [received errChan] in Hrec, Herr.
        rewrite <- app_assoc in Hrec. now repeat split.
    + destruct (IH {| producer := p1; store := st1; ordered := ordered s;
                      capacity := capacity s; queue := queue s;
                      closed := closed s; received := received s;
                      main := main s; errChan := errChan s ++ [Some e0];
                      terminalError := latch (terminalError s) e0 |}
                   acts1 p2 st2 Hmain Hq Erun)
        as (sched & s' & Hexec & Hsched & Hp & Hst & Hm & Hqu & Hrec & Herr).
      exists (RunProducer :: sched), s'.
      split; [cbn [exec sys_step]; unfold producer_move; now rewrite Estep|].
      split; [constructor; [now left | exact Hsched]|].
      cbn [received errChan] in Hrec, Herr.
      cbn [errors map]. rewrite <- app_assoc in Herr. now repeat split.
    + destruct (IH {| producer := p1; store := st1; ordered := ordered s;
                      capacity := capacity s; queue := queue s;
                      closed := true; received := received s;
                      main := main s; errChan := errChan s;
                      terminalError := terminalError s |}
                   acts1 p2 st2 Hmain Hq Erun)
        as (sched & s' & Hexec & Hsched & Hp & Hst & Hm & Hqu & Hrec & Herr).
      exists (RunProducer :: sched), s'.
      split; [cbn [exec sys_step]; unfold producer_move; now rewrite Estep|].
      split; [constructor; [now left | exact Hsched]|].
      now repeat split.
Qed.

(** X10: the steps of the TSV goroutine, each send taken at once, come to
    its end on every input: the source is used up and one record is sent
    for each LF byte of the input, whatever error the source ends with.
    In [StreamDocument], where a send waits for the record channel, the
    goroutine reaches that end if the engine keeps receiving and the error
    channel takes the read error: there are moves of the goroutine and
    receives of the engine alone after which the goroutine has returned,
    all these records are received and the read error, if the input did
    not just end, is on the error channel.  Whatever the moves, the record
    channel never takes more records than the input has LF bytes, and it
    has taken exactly that many, the source used up, once the goroutine
    has returned. *)
Theorem X10_tsv_one_record_per_line_end
        (fs : list bytes) (nd : Z) (input : bytes) (e : error) :
  let '(r, st) := NewTSVInputReader fs (io.source input e) nd in
  (exists acts p' st',
      (forall m : nat,
          run (2 * count_occ ascii_dec input LF + 3 + m) (start r) st
          = (acts, p', st')) /\
      at_ p' = Returned /\
      err p' = Some e /\
      io.pending (io.in_obj st') = [] /\
      List.length (sends acts) = count_occ ascii_dec input LF) /\
  (forall (o : bool) (s0 : System TSVInputReader.t),
      StreamDocument r st o = Some s0 ->
      (exists (sched : list move) (s : System TSVInputReader.t),
          exec sched s0 = Some s /\
          Forall (fun m => m = RunProducer \/ m = EngineReceive) sched /\
          at_ (producer s) = Returned /\
          err (producer s) = Some e /\
          io.pending (io.in_obj (store s)) = [] /\
          queue s = [] /\
          List.length (received s) = count_occ ascii_dec input LF /\
          exists i : Z,
            errChan s = if is_EOF e then [] else [Some (Errorf_read i e)]) /\
      (forall (sched : list move) (s : System TSVInputReader.t),
          exec sched s0 = Some s ->
          (List.length (accepted s) <= count_occ ascii_dec input LF)%nat /\
          (at_ (producer s) = Returned ->
           List.length (accepted s) = count_occ ascii_dec input LF /\
           io.pending (io.in_obj (store s)) = []))).
Proof.
  destruct (lines_of_any_input input)
    as (lines & partial & -> & Hlines & Hpartial & Hcount).
  destruct (tsv_run_all fs nd lines partial e Hlines Hpartial)
    as (np & r' & st' & Hrun & _ & _ & Hp & _).
  destruct (NewTSVInputReader fs _ nd) as [r st].
  cbn [fst snd] in Hrun. rewrite <- Hcount.
  assert (Hsends :
            List.length
              (sends (sending (tsv_records fs 0 lines)
                        ++ Tau :: read_error_sent np 0 e ++ [Close]))
            = List.length lines).
  { rewrite sends_app, sends_sending. cbn [sends].
    rewrite sends_app, sends_read_error_sent. cbn [sends app].
    rewrite app_nil_r. apply tsv_records_length. }
  split.
  - exists (sending (tsv_records fs 0 lines) ++ Tau :: read_error_sent np 0 e ++ [Close]),
      {| reader := r'; err := Some e; at_ := Returned |}, st'.
    split; [|split; [|split; [|split]]].
    + intros m. rewrite run_app, Hrun. now rewrite run_Returned, app_nil_r.
    + reflexivity.
    + reflexivity.
    + exact Hp.
    + exact Hsends.
  - intros o s0 Hstart. split.
    + assert (Hs0 : producer s0 = start r /\ store s0 = st /\
                    main s0 = Streaming /\ queue s0 = [] /\ received s0 = []).
      { unfold StreamDocument in Hstart.
        destruct (numDecoders r <? 0); [discriminate|].
        inversion Hstart; subst. now repeat split. }
      assert (He0 : errChan s0 = []).
      { unfold StreamDocument in Hstart.
        destruct (numDecoders r <? 0); [discriminate|].
        now inversion Hstart; subst. }
      destruct Hs0 as (Hp0 & Hst0 & Hm0 & Hq0 & Hr0).
      rewrite <- Hp0, <- Hst0 in Hrun.
      destruct (engine_keeps_up _ s0 _ _ _ Hm0 Hq0 Hrun)
        as (sched & s & Hexec & Hsched & Hps & Hsts & _ & Hqs & Hrs & Hes).
      exists sched, s.
      split; [exact Hexec|]. split; [exact Hsched|].
      rewrite Hps, Hsts, Hrs, Hr0, Hes, He0. cbn [at_ err app].
      split; [reflexivity|]. split; [reflexivity|]. split; [exact Hp|].
      split; [exact Hqs|]. split; [exact Hsends|].
      exists (uint64 (np + Z.of_nat 0 + 1)).
      rewrite errors_app, errors_sending. cbn [errors app].
      rewrite errors_app. unfold read_error_sent.
      now destruct (is_EOF e).
    + intros sched s Hexec.
      destruct (sys_ok_exec _ _ sched s0 s (sys_ok_start _ _ o s0 Hstart) Hexec)
        as (k & acts & Hk & Hadm & _).
      split.
      * destruct (sends_run_prefix k (2 * List.length lines + 3) (start r) st
                                   ltac:(rewrite Hrun; reflexivity))
          as [rest Hprefix].
        rewrite Hrun, Hk in Hprefix. cbn [fst] in Hprefix.
        rewrite Hadm, <- Hsends, Hprefix, length_app. lia.
      * intros Hret.
        assert (Hsame : run k (start r) st
                        = run (2 * List.length lines + 3) (start r) st).
        { apply run_to_the_end_same.
          - rewrite Hrun. reflexivity.
          - rewrite Hk. exact Hret. }
        rewrite Hk, Hrun in Hsame. inversion Hsame; subst.
        rewrite Hadm. split; [exact Hsends | exact Hp].
Qed.

(** X10 at an input: two complete lines and a rest, a record channel with
    room for one record. *)
Lemma X10_witness :
  exists (s0 : System TSVInputReader.t),
    StreamDocument
      (fst (NewTSVInputReader
              [B "a"] (io.source (tsv_line ["x"]%string ++ tsv_line ["y"]%string ++ B "z")
                                 EOF) 1))
      (snd (NewTSVInputReader
              [B "a"] (io.source (tsv_line ["x"]%string ++ tsv_line ["y"]%string ++ B "z")
                                 EOF) 1))
      true
    = Some s0 /\
    exists (sched : list move) (s : System TSVInputReader.t),
      exec sched s0 = Some s /\
      at_ (producer s) = Returned /\
      List.length (received s) = 2%nat.
Proof.
  pose (input := tsv_line ["x"]%string ++ tsv_line ["y"]%string ++ B "z").
  pose (rs := NewTSVInputReader [B "a"] (io.source input EOF) 1).
  assert (Estart : exists s0, StreamDocument (fst rs) (snd rs) true = Some s0)
    by (eexists; reflexivity).
  destruct Estart as [s0 Estart].
  exists s0. split; [exact Estart|].
  pose proof (X10_tsv_one_record_per_line_end [B "a"] 1 input EOF) as Hthm.
  change (NewTSVInputReader [B "a"] (io.source input EOF) 1) with rs in Hthm.
  rewrite (surjective_pairing rs) in Hthm.
  destruct Hthm as [_ Hsys].
  destruct (Hsys true s0 Estart)
    as [(sched & s & Hexec & _ & Hret & _ & _ & _ & Hlen & _) _].
  exists sched, s. split; [exact Hexec|]. split; [exact Hret | exact Hlen].
Defined.
